(** * Lock-based containers: a sequential model of [threadsafe_stack] and
      [threadsafe_queue]

    The two C++ class templates are embedded as state-passing programs.
    A member function is a computation that reads and writes the object's
    fields, emits the synchronisation events it performs (mutex
    acquisitions and releases, condition-variable traffic) and ends in one
    of four ways: it returns, it throws, the calling thread is suspended,
    or it dereferences a null pointer. *)

From stdpp Require Import gmap list sorting.
From Stdlib Require Import ZArith.

(** ** The execution monad *)

Module Exec.

(** [std::shared_ptr<T>]: either null or a handle on a payload. *)
Definition shared_ptr (T : Type) : Type := option T.

Section Exec.
Context {St Exn Ev : Type}.

(** How a call ends.  [Block s] is a thread parked on a mutex that is
    already held or on a condition variable whose predicate is false;
    [Fault] is undefined behaviour (a null pointer was dereferenced). *)
Inductive result (A : Type) : Type :=
| Ret (a : A) (s : St)
| Throw (e : Exn) (s : St)
| Block (s : St)
| Fault.

Global Arguments Ret {A} a s.
Global Arguments Throw {A} e s.
Global Arguments Block {A} s.
Global Arguments Fault {A}.

(** A computation maps the state before the call to the events it
    emitted, oldest first, and the way it ended. *)
Definition M (A : Type) : Type := St -> list Ev * result A.

Definition after {A} (t : list Ev) (o : list Ev * result A) : list Ev * result A :=
  let '(t', r) := o in (t ++ t', r).

Definition ret {A} (a : A) : M A := fun s => ([], Ret a s).

Definition bind {A B} (c : M A) (k : A -> M B) : M B := fun s =>
  match c s with
  | (t, Ret a s1) => after t (k a s1)
  | (t, Throw e s1) => (t, Throw e s1)
  | (t, Block s1) => (t, Block s1)
  | (t, Fault) => (t, Fault)
  end.

Definition throw {A} (e : Exn) : M A := fun s => ([], Throw e s).
Definition fault {A} : M A := fun _ => ([], Fault).
Definition park {A} : M A := fun s => ([], Block s).
Definition emit (e : Ev) : M unit := fun s => ([e], Ret tt s).
Definition gets {A} (f : St -> A) : M A := fun s => ([], Ret (f s) s).
Definition modify (f : St -> St) : M unit := fun s => ([], Ret tt (f s)).

(** [std::mutex::lock] on the flag read by [held]: the caller is parked
    when the mutex is taken, otherwise it takes it. *)
Definition lock (held : St -> bool) (set : bool -> St -> St) (e : Ev) : M unit :=
  fun s => if held s then ([], Block s) else ([e], Ret tt (set true s)).

Definition unlock (set : bool -> St -> St) (e : Ev) : M unit :=
  fun s => ([e], Ret tt (set false s)).

(** The destructor of a scope-bound object ([std::lock_guard],
    [std::unique_lock], [std::unique_ptr]) runs when the scope is left,
    by a return or by an exception. *)
Definition scope_exit {A} (body : M A) (dtor : M unit) : M A := fun s =>
  match body s with
  | (t, Ret a s1) => after t (bind dtor (fun _ => ret a) s1)
  | (t, Throw e s1) => after t (bind dtor (fun _ => throw e) s1)
  | (t, Block s1) => (t, Block s1)
  | (t, Fault) => (t, Fault)
  end.

(** [std::lock_guard<std::mutex> g(mx); body] *)
Definition lock_guard {A} (acq rel : M unit) (body : M A) : M A :=
  bind acq (fun _ => scope_exit body rel).

(** Calling [f] on each element of [l] in turn. *)
Fixpoint for_each {A} (f : A -> M unit) (l : list A) : M unit :=
  match l with
  | [] => ret tt
  | x :: l' => bind (f x) (fun _ => for_each f l')
  end.

(** Calling [c] [n] times and collecting what it returned, in call order. *)
Fixpoint collect {A} (n : nat) (c : M A) : M (list A) :=
  match n with
  | O => ret []
  | S n' => bind c (fun a => bind (collect n' c) (fun r => ret (a :: r)))
  end.

(** Threading a value through [n] calls of [f], collecting every
    intermediate value. *)
Fixpoint thread {A} (n : nat) (f : A -> M A) (a : A) : M (list A) :=
  match n with
  | O => ret []
  | S n' => bind (f a) (fun a' => bind (thread n' f a') (fun r => ret (a' :: r)))
  end.

Definition map_ret {A B} (f : A -> B) (c : M A) : M B :=
  bind c (fun a => ret (f a)).

(** A computation that performs no synchronisation. *)
Definition silent {A} (c : M A) : Prop := forall s, (c s).1 = [].

(** The state a call leaves behind, when it leaves one. *)
Definition state_of {A} (r : result A) : option St :=
  match r with
  | Ret _ s | Throw _ s | Block s => Some s
  | Fault => None
  end.
End Exec.

Global Arguments result : clear implicits.
Global Arguments M : clear implicits.

Module Notations.
Notation "x <- c ;; k" := (bind c (fun x => k))
  (at level 100, c at next level, right associativity).
Notation "c ;; k" := (bind c (fun _ => k))
  (at level 100, right associativity).
End Notations.

End Exec.

Import Exec Exec.Notations.

(** ** [threadsafe_stack<T>] *)

Module Stack.

(** [struct empty_stack : std::exception] *)
Inductive exn : Type := empty_stack.

(** Operations on the member mutex [m]. *)
Inductive event : Type := Lock | Unlock.

Section Stack.
Context {T : Type}.

(** [std::stack<T> data] is the list of its elements, top first;
    [std::mutex m] is its held flag. *)
Record threadsafe_stack : Type := mk {
  data : list T;
  m : bool
}.

Definition set_data (d : list T) (s : threadsafe_stack) : threadsafe_stack :=
  {| data := d; m := m s |}.
Definition set_m (b : bool) (s : threadsafe_stack) : threadsafe_stack :=
  {| data := data s; m := b |}.

Abbreviation SM := (M threadsafe_stack exn event).

Definition m_lock : SM unit := lock m set_m Lock.
Definition m_unlock : SM unit := unlock set_m Unlock.

(** [threadsafe_stack() = default] *)
Definition ctor : threadsafe_stack := {| data := []; m := false |}.

Definition push (new_value : T) : SM unit :=
  lock_guard m_lock m_unlock
    (modify (fun s => set_data (new_value :: data s) s)).

(** [std::shared_ptr<T> pop()] *)
Definition pop : SM (shared_ptr T) :=
  lock_guard m_lock m_unlock
    (d <- gets data ;;
     match d with
     | [] => throw empty_stack
     | top :: rest =>
         let res := Some top in
         modify (set_data rest) ;;
         ret res
     end).

(** [void pop(T& value)]: the referenced storage is passed in as its
    content before the call and handed back as its content after it.
    When the call throws, no assignment to it has run. *)
Definition pop_ref (value : T) : SM T :=
  lock_guard m_lock m_unlock
    (d <- gets data ;;
     match d with
     | [] => throw empty_stack
     | top :: rest =>
         let value := top in
         modify (set_data rest) ;;
         ret value
     end).

Definition empty : SM bool :=
  lock_guard m_lock m_unlock
    (gets (fun s => match data s with [] => true | _ => false end)).

(** The sequential test of the source, for any values: push them in
    order, pop as many times as there were pushes, then ask [empty].
    [pop_all] uses the value-returning overload, [pop_all_ref] the
    overload that writes through a reference, starting from storage
    that holds [value]. *)
Definition pop_all (l : list T) : SM (list (shared_ptr T) * bool) :=
  for_each push l ;;
  r <- collect (length l) pop ;;
  e <- empty ;;
  ret (r, e).

Definition pop_all_ref (l : list T) (value : T) : SM (list T * bool) :=
  for_each push l ;;
  r <- thread (length l) pop_ref value ;;
  e <- empty ;;
  ret (r, e).

(** *** Several stack objects

    The copy constructor touches two objects, so it runs on a store of
    objects indexed by address; each object carries its own [m]. *)

Definition addr := nat.

Abbreviation WM := (M (gmap addr threadsafe_stack) exn (addr * event)).

(** Running a member function on the object at [this]. *)
Definition call {A} (this : addr) (f : SM A) : WM A := fun st =>
  match st !! this with
  | None => ([], Fault)
  | Some o =>
      let '(t, r) := f o in
      (pair this <$> t,
       match r with
       | Ret a o' => Ret a (<[this := o']> st)
       | Throw e o' => Throw e (<[this := o']> st)
       | Block o' => Block (<[this := o']> st)
       | Fault => Fault
       end)
  end.

(** [threadsafe_stack(const threadsafe_stack& other)]: the members of
    the object under construction at [this] are default-initialised,
    then the body copies [other.data] under [other.m]. *)
Definition copy_ctor (this other : addr) : WM unit :=
  modify (fun st => <[this := ctor]> st) ;;
  lock_guard (call other m_lock) (call other m_unlock)
    (d <- call other (gets data) ;;
     call this (modify (set_data d))).
End Stack.

Global Arguments threadsafe_stack : clear implicits.

(** A stack of [int]: 3 on top of 2 on top of 1. *)
Definition a_stack : threadsafe_stack Z := {| data := [3; 2; 1]%Z; m := false |}.

End Stack.

(** ** [threadsafe_queue<T>] *)

Module Queue.

Definition addr := nat.

(** What the member functions do to [head_mutex], [tail_mutex] and
    [data_cond]. *)
Inductive event : Type :=
| LockHead | UnlockHead
| LockTail | UnlockTail
| Wait        (* [data_cond.wait] suspends the caller *)
| NotifyOne.  (* [data_cond.notify_one()] *)

Section Queue.
Context {T : Type}.

(** [struct node { std::shared_ptr<T> data; std::unique_ptr<node> next; }]
    A pointer to a node is [None] (null) or the address of a cell. *)
Record node : Type := mk_node {
  data : shared_ptr T;
  next : option addr
}.

(** The queue object together with the cells allocated for it:
    [heap] holds the live nodes and [brk] is the address the next
    [new node] gets (addresses are not reused). *)
Record threadsafe_queue : Type := mk {
  heap : gmap addr node;
  brk : addr;
  head_mutex : bool;
  tail_mutex : bool;
  head : option addr;
  tail : option addr
}.

Definition set_heap (h : gmap addr node) (q : threadsafe_queue) :=
  {| heap := h; brk := brk q; head_mutex := head_mutex q;
     tail_mutex := tail_mutex q; head := head q; tail := tail q |}.
Definition set_brk (b : addr) (q : threadsafe_queue) :=
  {| heap := heap q; brk := b; head_mutex := head_mutex q;
     tail_mutex := tail_mutex q; head := head q; tail := tail q |}.
Definition set_head_mutex (b : bool) (q : threadsafe_queue) :=
  {| heap := heap q; brk := brk q; head_mutex := b;
     tail_mutex := tail_mutex q; head := head q; tail := tail q |}.
Definition set_tail_mutex (b : bool) (q : threadsafe_queue) :=
  {| heap := heap q; brk := brk q; head_mutex := head_mutex q;
     tail_mutex := b; head := head q; tail := tail q |}.
Definition set_head (p : option addr) (q : threadsafe_queue) :=
  {| heap := heap q; brk := brk q; head_mutex := head_mutex q;
     tail_mutex := tail_mutex q; head := p; tail := tail q |}.
Definition set_tail (p : option addr) (q : threadsafe_queue) :=
  {| heap := heap q; brk := brk q; head_mutex := head_mutex q;
     tail_mutex := tail_mutex q; head := head q; tail := p |}.

Abbreviation QM := (M threadsafe_queue Empty_set event).

Definition head_lock : QM unit := lock head_mutex set_head_mutex LockHead.
Definition head_unlock : QM unit := unlock set_head_mutex UnlockHead.
Definition tail_lock : QM unit := lock tail_mutex set_tail_mutex LockTail.
Definition tail_unlock : QM unit := unlock set_tail_mutex UnlockTail.

(** *** Memory *)

(** A default-initialised node: both smart pointers are null. *)
Definition empty_node : node := {| data := None; next := None |}.

(** [new node] *)
Definition new_node : QM addr := fun q =>
  ([], Ret (brk q) (set_brk (S (brk q)) (set_heap (<[brk q := empty_node]> (heap q)) q))).

(** Reading through a node pointer; null and dangling pointers fault. *)
Definition load (p : option addr) : QM node := fun q =>
  match p with
  | None => ([], Fault)
  | Some a =>
      match heap q !! a with
      | None => ([], Fault)
      | Some n => ([], Ret n q)
      end
  end.

(** Writing through a node pointer. *)
Definition store (p : option addr) (n : node) : QM unit :=
  _ <- load p ;;
  match p with
  | None => fault
  | Some a => modify (fun q => set_heap (<[a := n]> (heap q)) q)
  end.

(** Dereferencing a [std::shared_ptr<T>] *)
Definition deref (sp : shared_ptr T) : QM T :=
  match sp with
  | None => fault
  | Some v => ret v
  end.

(** [~unique_ptr<node>()]: a non-null pointer deletes its node, which
    first destroys the node's own [next].  [fuel] bounds the length of
    the chain that is torn down. *)
Fixpoint delete_chain (fuel : nat) (p : option addr) : QM unit :=
  match p with
  | None => ret tt
  | Some a =>
      match fuel with
      | O => fault
      | S fuel' =>
          n <- load p ;;
          delete_chain fuel' (next n) ;;
          modify (fun q => set_heap (delete a (heap q)) q)
      end
  end.

Definition destroy (p : option addr) : QM unit :=
  h <- gets heap ;;
  delete_chain (S (size h)) p.

(** *** Member functions *)

(** [threadsafe_queue() : head(new node), tail(head.get()) {}] *)
Definition ctor : threadsafe_queue :=
  {| heap := {[ 0 := empty_node ]}; brk := 1;
     head_mutex := false; tail_mutex := false;
     head := Some 0; tail := Some 0 |}.

Definition push (new_value : T) : QM unit :=
  let new_data : shared_ptr T := Some new_value in
  p <- new_node ;;
  lock_guard tail_lock tail_unlock
    (t <- gets tail ;;
     n <- load t ;;
     store t {| data := new_data; next := next n |} ;;
     let new_tail := Some p in
     (* tail->next = std::move(p): the link's old target is destroyed *)
     t <- gets tail ;;
     n <- load t ;;
     store t {| data := data n; next := Some p |} ;;
     destroy (next n) ;;
     modify (set_tail new_tail)) ;;
  emit NotifyOne.

Definition get_tail : QM (option addr) :=
  lock_guard tail_lock tail_unlock (gets tail).

Definition pop_head : QM (option addr) :=
  (* old_head = std::move(head) *)
  old_head <- gets head ;;
  modify (set_head None) ;;
  (* head = std::move(old_head->next) *)
  n <- load old_head ;;
  store old_head {| data := data n; next := None |} ;;
  h <- gets head ;;
  modify (set_head (next n)) ;;
  destroy h ;;
  ret old_head.

Definition empty : QM bool :=
  lock_guard head_lock head_unlock
    (h <- gets head ;;
     t <- get_tail ;;
     ret (bool_decide (h = t))).

(** [data_cond.wait(head_lock, pred)] with the predicate false releases
    the mutex and suspends the caller; with the predicate true it
    returns at once.  The [std::unique_lock] is handed to the caller, so
    [head_mutex] stays held on return. *)
Definition wait_for_data : QM unit :=
  head_lock ;;
  h <- gets head ;;
  t <- get_tail ;;
  if bool_decide (h ≠ t) then ret tt
  else (head_unlock ;; emit Wait ;; park).

Definition wait_pop_head : QM (option addr) :=
  wait_for_data ;;
  scope_exit pop_head head_unlock.

(** The overloads taking [T& value] hand back the final content of the
    referenced storage next to their result.  Moving out of the payload
    of the head node leaves that payload, which is about to be
    destroyed, as it is. *)
Definition wait_pop_head_ref (value : T) : QM (option addr * T) :=
  wait_for_data ;;
  scope_exit
    (h <- gets head ;;
     n <- load h ;;
     value <- deref (data n) ;;
     old_head <- pop_head ;;
     ret (old_head, value))
    head_unlock.

Definition try_pop_head : QM (option addr) :=
  lock_guard head_lock head_unlock
    (h <- gets head ;;
     t <- get_tail ;;
     if bool_decide (h = t) then ret None
     else pop_head).

Definition try_pop_head_ref (value : T) : QM (option addr * T) :=
  lock_guard head_lock head_unlock
    (h <- gets head ;;
     t <- get_tail ;;
     if bool_decide (h = t) then ret (None, value)
     else
       h <- gets head ;;
       n <- load h ;;
       value <- deref (data n) ;;
       old_head <- pop_head ;;
       ret (old_head, value)).

(** [std::shared_ptr<T> try_pop()]; [old_head] is destroyed on return. *)
Definition try_pop : QM (shared_ptr T) :=
  old_head <- try_pop_head ;;
  scope_exit
    (match old_head with
     | Some _ => n <- load old_head ;; ret (data n)
     | None => ret None
     end)
    (destroy old_head).

(** [bool try_pop(T& value)] *)
Definition try_pop_ref (value : T) : QM (bool * T) :=
  r <- try_pop_head_ref value ;;
  scope_exit
    (ret (bool_decide (r.1 ≠ None), r.2))
    (destroy r.1).

(** [std::shared_ptr<T> wait_and_pop()] *)
Definition wait_and_pop : QM (shared_ptr T) :=
  old_head <- wait_pop_head ;;
  scope_exit
    (n <- load old_head ;; ret (data n))
    (destroy old_head).

(** [void wait_and_pop(T& value)] *)
Definition wait_and_pop_ref (value : T) : QM T :=
  r <- wait_pop_head_ref value ;;
  scope_exit (ret r.2) (destroy r.1).

(** *** The chain of nodes and what it represents *)

(** The nodes owned through [p], in link order. *)
Fixpoint chain (fuel : nat) (h : gmap addr node) (p : option addr) : list addr :=
  match fuel, p with
  | S fuel', Some a =>
      match h !! a with
      | Some n => a :: chain fuel' h (next n)
      | None => []
      end
  | _, _ => []
  end.

(** The chain owned by [head], and the payload slot of each of its nodes. *)
Definition nodes (q : threadsafe_queue) : list addr :=
  chain (brk q) (heap q) (head q).

Definition slot (h : gmap addr node) (a : addr) : shared_ptr T :=
  match h !! a with
  | Some n => data n
  | None => None
  end.

Definition payloads (q : threadsafe_queue) : list (shared_ptr T) :=
  slot (heap q) <$> nodes q.

(** [lseg h a l t]: following the links from [a] one passes one node per
    element of [l], each carrying that element, and arrives at [t].
    A link always leads to a node allocated later. *)
Fixpoint lseg (h : gmap addr node) (a : addr) (l : list T) (t : addr) : Prop :=
  match l with
  | [] => a = t
  | v :: l' =>
      exists n, h !! a = Some {| data := Some v; next := Some n |}
                /\ a < n /\ lseg h n l' t
  end.

(** [repr q l]: the queue at rest holds the values [l], oldest first.
    The chain runs from [head] through one node per value to the node
    [tail] points at, which is empty and has no successor; there are no
    other nodes, and both mutexes are free. *)
Definition repr (q : threadsafe_queue) (l : list T) : Prop :=
  exists a t,
    head q = Some a /\ tail q = Some t
    /\ lseg (heap q) a l t
    /\ heap q !! t = Some empty_node
    /\ (forall i, is_Some (heap q !! i) -> i < brk q)
    /\ size (heap q) = S (length l)
    /\ head_mutex q = false /\ tail_mutex q = false.

(** *** Histories *)

(** The public operations, and what a call hands to its caller: the
    value that left the queue, if one did. *)
Inductive op : Type :=
| Push (v : T)
| TryPop
| TryPopRef (value : T)
| WaitAndPop
| WaitAndPopRef (value : T)
| Empty.

Definition run (o : op) : QM (option T) :=
  match o with
  | Push v => push v ;; ret None
  | TryPop => try_pop
  | TryPopRef value => r <- try_pop_ref value ;; ret (if r.1 then Some r.2 else None)
  | WaitAndPop => wait_and_pop
  | WaitAndPopRef value => v <- wait_and_pop_ref value ;; ret (Some v)
  | Empty => empty ;; ret None
  end.

(** What a call on a queue holding [l] is to hand out: the oldest value
    for a pop, nothing for [push] and [empty]. *)
Definition delivered (o : op) (l : list T) : option T :=
  match o with
  | Push _ | Empty => None
  | _ => l !! 0
  end.

(** The values pushed and not yet popped, oldest first, after a call
    that handed out [out]. *)
Definition pending (o : op) (out : option T) (l : list T) : list T :=
  match o, out with
  | Push v, _ => l ++ [v]
  | _, Some _ => drop 1 l
  | _, None => l
  end.

(** [reach q l]: [q] is the state some sequence of calls on a freshly
    constructed queue leaves behind (each call returned, or suspended
    its caller), and [l] are the values pushed and not yet popped. *)
Inductive reach : threadsafe_queue -> list T -> Prop :=
| reach_ctor : reach ctor []
| reach_ret o q l t out q' :
    reach q l -> run o q = (t, Ret out q') -> reach q' (pending o out l)
| reach_block o q l t q' :
    reach q l -> run o q = (t, Block q') -> reach q' l.
End Queue.

Global Arguments node : clear implicits.
Global Arguments threadsafe_queue : clear implicits.
Global Arguments op : clear implicits.

(** *** Lock order *)

(** [tail_inside_head hd tr]: along [tr], started with [head_mutex] held
    iff [hd], every acquisition of [tail_mutex] happens while
    [head_mutex] is held. *)
Fixpoint tail_inside_head (hd : bool) (tr : list event) : bool :=
  match tr with
  | [] => true
  | LockHead :: tr' => tail_inside_head true tr'
  | UnlockHead :: tr' => tail_inside_head false tr'
  | LockTail :: tr' => hd && tail_inside_head hd tr'
  | _ :: tr' => tail_inside_head hd tr'
  end.

(** [no_head_inside_tail tl tr]: along [tr], started with [tail_mutex]
    held iff [tl], [head_mutex] is never acquired while [tail_mutex] is
    held. *)
Fixpoint no_head_inside_tail (tl : bool) (tr : list event) : bool :=
  match tr with
  | [] => true
  | LockTail :: tr' => no_head_inside_tail true tr'
  | UnlockTail :: tr' => no_head_inside_tail false tr'
  | LockHead :: tr' => negb tl && no_head_inside_tail tl tr'
  | _ :: tr' => no_head_inside_tail tl tr'
  end.

(** [tr] does not touch [head_mutex]. *)
Definition tail_only (tr : list event) : bool :=
  forallb (fun e => match e with LockHead | UnlockHead => false | _ => true end) tr.

(** *** A sequential client on [int]s *)

Definition sequential_operations
  : M (threadsafe_queue Z) Empty_set event (list (shared_ptr Z)) :=
  push 1%Z ;; push 2%Z ;; push 3%Z ;;
  a <- try_pop ;;
  b <- try_pop ;;
  c <- try_pop ;;
  d <- try_pop ;;
  ret [a; b; c; d].

(** The freshly constructed queue after [push(1); push(2)]. *)
Definition a_queue : threadsafe_queue Z :=
  {| heap := {[ 0 := {| data := Some 1%Z; next := Some 1 |};
                1 := {| data := Some 2%Z; next := Some 2 |};
                2 := empty_node ]};
     brk := 3; head_mutex := false; tail_mutex := false;
     head := Some 0; tail := Some 2 |}.

End Queue.

(** ** Control flow of the callers *)

Module Control.

Section Control.
Context {St Exn Ev : Type}.

(** [try { body } catch (const Exn&) { handler }] *)
Definition try_catch {A} (body : M St Exn Ev A) (handler : Exn -> M St Exn Ev A)
  : M St Exn Ev A := fun s =>
  match body s with
  | (t, Throw e s1) => after t (handler e s1)
  | o => o
  end.

(** [for (int i = first; i < last; ++i) body(i)] *)
Definition for_range (first last : Z) (body : Z -> M St Exn Ev unit)
  : M St Exn Ev unit :=
  for_each body (seqZ first (last - first)).

(** Dereferencing a [std::shared_ptr<A>]. *)
Definition get {A} (sp : shared_ptr A) : M St Exn Ev A :=
  match sp with
  | None => fault
  | Some v => ret v
  end.

(** Calling each of [cs] in turn through [run] and collecting the
    answers. *)
Fixpoint run_all {C A} (run : C -> M St Exn Ev A) (cs : list C)
  : M St Exn Ev (list A) :=
  match cs with
  | [] => ret []
  | c :: cs' => a <- run c ;; r <- run_all run cs' ;; ret (a :: r)
  end.
End Control.

Section Zoom.
Context {St St' Exn Ev Ev' : Type}.

(** Running a member function of the sub-object read by [get] and written
    by [set]; its events are tagged by [tag]. *)
Definition zoom (get : St -> St') (set : St' -> St -> St) (tag : Ev' -> Ev)
    {A} (c : M St' Exn Ev' A) : M St Exn Ev A := fun s =>
  let '(t, r) := c (get s) in
  (tag <$> t,
   match r with
   | Ret a s' => Ret a (set s' s)
   | Throw e s' => Throw e (set s' s)
   | Block s' => Block (set s' s)
   | Fault => Fault
   end).
End Zoom.

End Control.

(** ** The callers of the stack *)

Module StackClient.
Import Stack Control.

(** *** Any single-threaded caller *)

Section Calls.
Context {T : Type}.

(** One call of a member function; [CPopRef value] passes storage that
    holds [value]. *)
Inductive call : Type :=
| CPush (v : T)
| CPop
| CPopRef (value : T)
| CEmpty.

(** What a call hands to its caller. *)
Inductive answer : Type :=
| Void
| Value (v : T)
| Null
| Flag (b : bool).

Definition run (c : call) : M (threadsafe_stack T) exn event answer :=
  match c with
  | CPush v => push v ;; ret Void
  | CPop => p <- pop ;; ret (match p with Some v => Value v | None => Null end)
  | CPopRef value => v <- pop_ref value ;; ret (Value v)
  | CEmpty => b <- empty ;; ret (Flag b)
  end.

(** The list a caller has in mind: [lifo cs d] is what the calls [cs]
    answer on the elements [d] (top first) and the elements left, or the
    elements at the moment a pop found none. *)
Fixpoint lifo (cs : list call) (d : list T) : list answer * list T + list T :=
  match cs with
  | [] => inl ([], d)
  | c :: cs' =>
      let next a d' :=
        match lifo cs' d' with
        | inl (r, d'') => inl (a :: r, d'')
        | inr d'' => inr d''
        end in
      match c, d with
      | CPush v, _ => next Void (v :: d)
      | CEmpty, [] => next (Flag true) d
      | CEmpty, _ :: _ => next (Flag false) d
      | (CPop | CPopRef _), [] => inr d
      | (CPop | CPopRef _), top :: rest => next (Value top) rest
      end
  end.
End Calls.

Global Arguments call : clear implicits.
Global Arguments answer : clear implicits.

(** *** The test driver *)

(** Events of the driver: those of the stack's mutex and those of
    [results_mutex]. *)
Inductive event : Type :=
| OnStack (e : Stack.event)
| LockResults
| UnlockResults.

(** What the worker functions share: the stack, the [std::vector<int>
    results] (in [push_back] order) and [results_mutex]. *)
Record world : Type := mk {
  stack : threadsafe_stack Z;
  results : list Z;
  results_mutex : bool
}.

Definition set_stack (s : threadsafe_stack Z) (w : world) : world :=
  {| stack := s; results := results w; results_mutex := results_mutex w |}.
Definition set_results (r : list Z) (w : world) : world :=
  {| stack := stack w; results := r; results_mutex := results_mutex w |}.
Definition set_results_mutex (b : bool) (w : world) : world :=
  {| stack := stack w; results := results w; results_mutex := b |}.

Abbreviation WM := (M world exn event).

Definition on_stack {A} (c : M (threadsafe_stack Z) exn Stack.event A) : WM A :=
  zoom stack set_stack OnStack c.

Definition results_lock : WM unit := lock results_mutex set_results_mutex LockResults.
Definition results_unlock : WM unit := unlock set_results_mutex UnlockResults.

(** [results.push_back(v)] *)
Definition push_back (v : Z) : WM unit :=
  modify (fun w => set_results (results w ++ [v]) w).

(** [void concurrent_push(threadsafe_stack<int>& stack, int start, int end)] *)
Definition concurrent_push (start end_ : Z) : WM unit :=
  for_range start end_ (fun i => on_stack (push i)).

(** [void concurrent_pop(threadsafe_stack<int>& stack,
    std::vector<int>& results, int count, std::mutex& results_mutex)] *)
Definition concurrent_pop (count : Z) : WM unit :=
  for_range 0 count (fun _ =>
    try_catch
      (value <- on_stack pop ;;
       lock_guard results_lock results_unlock
         (v <- get value ;;
          push_back v))
      (fun _ => ret tt)).

End StackClient.

(** ** The callers of the queue *)

Module QueueClient.
Import Queue Control.

(** *** Any single-threaded caller *)

Section Histories.
Context {T : Type}.

(** The list a caller has in mind: [fifo os l] is what the calls [os]
    hand out on a queue holding [l], oldest first, and the values left.
    It is [None] when a [wait_and_pop] finds no value: with no other
    thread to push, that caller is suspended for good. *)
Fixpoint fifo (os : list (op T)) (l : list T) : option (list (option T) * list T) :=
  match os with
  | [] => Some ([], l)
  | o :: os' =>
      let next out l' :=
        match fifo os' l' with
        | Some (r, l'') => Some (out :: r, l'')
        | None => None
        end in
      match o, l with
      | Push v, _ => next None (l ++ [v])
      | Empty, _ => next None l
      | (TryPop | TryPopRef _), [] => next None []
      | (WaitAndPop | WaitAndPopRef _), [] => None
      | _, v :: l' => next (Some v) l'
      end
  end.
End Histories.

(** *** The sequential test *)

(** The locals of [test_sequential_operations]: the queue and the
    [std::vector<int> results]. *)
Record world : Type := mk {
  queue : threadsafe_queue Z;
  results : list Z
}.

Definition set_queue (q : threadsafe_queue Z) (w : world) : world :=
  {| queue := q; results := results w |}.
Definition set_results (r : list Z) (w : world) : world :=
  {| queue := queue w; results := r |}.

Abbreviation WM := (M world Empty_set Queue.event).

Definition on_queue {A} (c : M (threadsafe_queue Z) Empty_set Queue.event A) : WM A :=
  zoom queue set_queue id c.

(** [results.push_back(v)] *)
Definition push_back (v : Z) : WM unit :=
  modify (fun w => set_results (results w ++ [v]) w).

(** [for (int i = 0; i < n; ++i) queue.push(i);] *)
Definition fill (n : Z) : WM unit :=
  for_range 0 n (fun i => on_queue (push i)).

(** [while (!queue.empty()) { int item; if (queue.try_pop(item))
    results.push_back(item); }], unrolled at most [fuel] times.  The
    answer is true when the loop was left because the queue was found
    empty, false when the fuel ran out first.  [item k] is the
    indeterminate content of the uninitialised [item] in the iteration
    that has [k] unrollings left. *)
Fixpoint drain (fuel : nat) (item : nat -> Z) : WM bool :=
  match fuel with
  | O => ret false
  | S fuel' =>
      e <- on_queue empty ;;
      if negb e then
        (r <- on_queue (try_pop_ref (item fuel')) ;;
         (if r.1 then push_back r.2 else ret tt) ;;
         drain fuel' item)
      else ret true
  end.

(** The body of [test_sequential_operations] up to the printing, started
    on its freshly constructed locals; it hands back [results]. *)
Definition test_sequential_operations (fuel : nat) (item : nat -> Z)
  : list Queue.event * result world Empty_set (bool * list Z) :=
  (fill 10 ;;
   left_loop <- drain fuel item ;;
   r <- gets results ;;
   ret (left_loop, r))
    {| queue := ctor; results := [] |}.

End QueueClient.

(** ** Threads *)

(** A thread is the sequence of critical sections it still has to run:
    each one is a computation on the shared state that yields the rest
    of the thread.  Threads are interleaved at that granularity: what a
    thread does inside one critical section is not interrupted by the
    others, since they would need a mutex it holds or touch other
    memory. *)

Module Threads.
Section Threads.
Context {St Exn Ev : Type}.

Local Unset Elimination Schemes.
Inductive thread : Type :=
| Done
| Step (c : M St Exn Ev thread).
Local Set Elimination Schemes.

Definition is_done (th : thread) : bool :=
  match th with
  | Done => true
  | Step _ => false
  end.

(** Letting [th] run its next critical section.  A suspended thread
    stays where it is and tries again when it is next scheduled (it has
    been woken, by a notification or spuriously, or the mutex it wanted
    may be free now).  An exception that escapes the thread function, or
    a fault, ends the whole program: there is no next state. *)
Definition step_thread (th : thread) (s : St) : option (St * thread) :=
  match th with
  | Done => Some (s, Done)
  | Step c =>
      match (c s).2 with
      | Ret th' s' => Some (s', th')
      | Block s' => Some (s', th)
      | Throw _ _ => None
      | Fault => None
      end
  end.

(** Running the threads [ts] as the schedule [sched] says: its entries
    name the thread that moves next.  Naming a finished or missing
    thread does nothing. *)
Fixpoint exec (sched : list nat) (s : St) (ts : list thread)
  : option (St * list thread) :=
  match sched with
  | [] => Some (s, ts)
  | i :: sched' =>
      match ts !! i with
      | None => exec sched' s ts
      | Some th =>
          match step_thread th s with
          | Some (s', th') => exec sched' s' (<[i := th']> ts)
          | None => None
          end
      end
  end.

(** All threads have run to their end, so that joining each of them
    returns. *)
Definition joined (ts : list thread) : bool := forallb is_done ts.
End Threads.

Global Arguments thread : clear implicits.

End Threads.

(** ** The concurrent test of the stack *)

Module StackThreads.
Import Stack Control StackClient Threads.

(** A thread running [concurrent_push]: one critical section per value,
    [vs] being the values still to push. *)
Fixpoint pusher (vs : list Z) : thread world exn event :=
  match vs with
  | [] => Done
  | v :: vs' => Step (on_stack (push v) ;; ret (pusher vs'))
  end.

Definition concurrent_push_thread (start end_ : Z) : thread world exn event :=
  pusher (seqZ start (end_ - start)).

(** The second critical section of an iteration of [concurrent_pop],
    under [results_mutex]; [rest] is the thread after it. *)
Definition record_value (value : shared_ptr Z) (rest : thread world exn event)
  : thread world exn event :=
  Step (lock_guard results_lock results_unlock
          (v <- get value ;; push_back v) ;;
        ret rest).

(** A thread running [concurrent_pop] with [n] iterations left.  The
    [try] block spans both critical sections of an iteration; only the
    first, the pop, can throw what the handler catches. *)
Fixpoint popper (n : nat) : thread world exn event :=
  match n with
  | O => Done
  | S n' =>
      Step (try_catch
              (value <- on_stack pop ;; ret (record_value value (popper n')))
              (fun _ => ret (popper n')))
  end.

Definition concurrent_pop_thread (count : Z) : thread world exn event :=
  popper (Z.to_nat count).

(** Where a thread running [concurrent_pop] can be between two critical
    sections: before an iteration, [n] of them being left, or holding
    the value it popped, [n] iterations being left after this one. *)
Inductive popping : Type :=
| Idle (n : nat)
| Holding (v : Z) (n : nat).

Definition popping_thread (p : popping) : thread world exn event :=
  match p with
  | Idle n => popper n
  | Holding v n => record_value (Some v) (popper n)
  end.

Definition held (p : popping) : list Z :=
  match p with
  | Idle _ => []
  | Holding v _ => [v]
  end.

Definition todo (p : popping) : nat :=
  match p with
  | Idle n => n
  | Holding _ n => n
  end.

Definition num_threads : Z := 5.
Definition items_per_thread : Z := 100.

(** The threads of the first loop of [test_concurrent_operations], for
    [n] threads of [k] items, and those of the second. *)
Definition pushers (n k : Z) : list (thread world exn event) :=
  (fun i => concurrent_push_thread (i * k) ((i + 1) * k)) <$> seqZ 0 n.

Definition poppers (n k : Z) : list (thread world exn event) :=
  (fun _ => concurrent_pop_thread k) <$> seqZ 0 n.

(** How a run of the test up to its assertions ends. *)
Inductive verdict : Type :=
| Crashed                   (* an exception escaped a thread, or a fault *)
| Unfinished                (* the schedule ends before a join returns *)
| Finished (r : list Z).    (* [results] when the assertions are reached *)

(** [test_concurrent_operations] up to its assertions: the pushing
    threads run as [sched1] says and are joined, then the popping threads
    run as [sched2] says and are joined. *)
Definition run_test (n k : Z) (sched1 sched2 : list nat) : verdict :=
  match exec sched1 {| stack := ctor; results := []; results_mutex := false |}
          (pushers n k) with
  | None => Crashed
  | Some (w1, ts1) =>
      if joined ts1 then
        match exec sched2 w1 (poppers n k) with
        | None => Crashed
        | Some (w2, ts2) =>
            if joined ts2 then Finished (StackClient.results w2) else Unfinished
        end
      else Unfinished
  end.

Definition test_concurrent_operations : list nat -> list nat -> verdict :=
  run_test num_threads items_per_thread.

(** The schedule that lets thread 0 take [steps] steps, then thread 1,
    and so on up to thread [n - 1]. *)
Definition one_after_the_other (n steps : nat) : list nat :=
  mjoin ((fun i => replicate steps i) <$> seq 0 n).

End StackThreads.

(** ** The concurrent test of the queue *)

Module QueueThreads.
Import Queue Control Threads.

(** What [wait_and_pop(value)] does once [wait_for_data] has returned
    with [head_mutex] held: it copies the payload of the head node out,
    unlinks that node, releases [head_mutex] and destroys the node. *)
Definition take_ref {T} (value : T) : M (threadsafe_queue T) Empty_set Queue.event T :=
  r <- scope_exit
         (h <- gets head ;;
          n <- load h ;;
          value <- deref (data n) ;;
          old_head <- pop_head ;;
          ret (old_head, value))
         head_unlock ;;
  scope_exit (ret r.2) (destroy r.1).

(** Events of the test: those of the queue and those of
    [results_mutex]. *)
Inductive event : Type :=
| OnQueue (e : Queue.event)
| LockResults
| UnlockResults.

(** What the threads share: the queue, the [std::unordered_set<int>
    results] and [results_mutex]. *)
Record world : Type := mk {
  queue : threadsafe_queue Z;
  results : gset Z;
  results_mutex : bool
}.

Definition set_queue (q : threadsafe_queue Z) (w : world) : world :=
  {| queue := q; results := results w; results_mutex := results_mutex w |}.
Definition set_results (r : gset Z) (w : world) : world :=
  {| queue := queue w; results := r; results_mutex := results_mutex w |}.
Definition set_results_mutex (b : bool) (w : world) : world :=
  {| queue := queue w; results := results w; results_mutex := b |}.

Abbreviation WM := (M world Empty_set event).

Definition on_queue {A} (c : M (threadsafe_queue Z) Empty_set Queue.event A) : WM A :=
  zoom queue set_queue OnQueue c.

Definition results_lock : WM unit := lock results_mutex set_results_mutex LockResults.
Definition results_unlock : WM unit := unlock set_results_mutex UnlockResults.

(** [results.insert(v)] *)
Definition insert_result (v : Z) : WM unit :=
  modify (fun w => set_results ({[ v ]} ∪ results w) w).

(** The [producer] lambda: one [push] per value, [vs] being the values
    still to push. *)
Fixpoint producer (vs : list Z) : thread world Empty_set event :=
  match vs with
  | [] => Done
  | v :: vs' => Step (on_queue (push v) ;; ret (producer vs'))
  end.

(** The [consumer] lambda with [n] iterations left.  An iteration has
    three parts: [wait_for_data], which suspends the thread as long as
    it finds the queue empty and otherwise returns holding [head_mutex];
    the removal of the head node; and the insertion into [results] under
    [results_mutex].  [item k] is what the uninitialised [item] holds in
    the iteration that has [k] iterations after it. *)
Definition record_item (v : Z) (rest : thread world Empty_set event)
  : thread world Empty_set event :=
  Step (lock_guard results_lock results_unlock (insert_result v) ;; ret rest).

Definition remove_item (value : Z) (rest : thread world Empty_set event)
  : thread world Empty_set event :=
  Step (v <- on_queue (take_ref value) ;; ret (record_item v rest)).

Fixpoint consumer (item : nat -> Z) (n : nat) : thread world Empty_set event :=
  match n with
  | O => Done
  | S n' =>
      Step (on_queue wait_for_data ;;
            ret (remove_item (item n') (consumer item n')))
  end.

(** Where a thread of the test can be between two of its steps. *)
Inductive place : Type :=
| Producing (vs : list Z)          (* in [producer], [vs] left to push *)
| Waiting (n : nat)                (* in [consumer], [n] iterations left *)
| Locked (n : nat)                 (* holding [head_mutex], [n] iterations after this one *)
| Got (v : Z) (n : nat).           (* holding the popped [v], [n] iterations after this one *)

Definition place_thread (item : nat -> Z) (p : place) : thread world Empty_set event :=
  match p with
  | Producing vs => producer vs
  | Waiting n => consumer item n
  | Locked n => remove_item (item n) (consumer item n)
  | Got v n => record_item v (consumer item n)
  end.

(** The values a thread will still push, holds, and the pops it still
    has to complete; whether it holds [head_mutex]. *)
Definition to_push (p : place) : list Z :=
  match p with Producing vs => vs | _ => [] end.
Definition in_hand (p : place) : list Z :=
  match p with Got v _ => [v] | _ => [] end.
Definition to_pop (p : place) : nat :=
  match p with
  | Producing _ => 0
  | Waiting n => n
  | Locked n => S n
  | Got _ n => n
  end.
Definition holds_head (p : place) : nat :=
  match p with Locked _ => 1 | _ => 0 end.

(** What holds between any two steps of the test, [l] being the values
    in the queue and [all] every value of the test: but for [head_mutex]
    the queue is at rest and holds [l]; [head_mutex] is held exactly when
    one consumer is past [wait_for_data], and then the queue is not
    empty; the values in [results], in the consumers' hands, in the queue
    and still to push are together the values of the test; and the
    consumers have at least as many pops left as there are values in the
    queue or still to push. *)
Definition invariant (all : list Z) (w : world) (ps : list place) (l : list Z) : Prop :=
  repr (set_head_mutex false (queue w)) l
  /\ sum_list_with holds_head ps = (if head_mutex (queue w) then 1 else 0)
  /\ (head_mutex (queue w) = true -> l <> [])
  /\ results_mutex w = false
  /\ (exists r, results w = list_to_set r
               /\ r ++ mjoin (in_hand <$> ps) ++ l ++ mjoin (to_push <$> ps) ≡ₚ all)
  /\ length l + length (mjoin (to_push <$> ps)) <= sum_list_with to_pop ps.

Definition num_producers : Z := 5.
Definition num_consumers : Z := 5.
Definition items_per_producer : Z := 10.

(** The threads of [test_concurrent_operations] in creation order:
    [np] producers of [k] items each, pushing [id * k + i], then [nc]
    consumers of [np * k / nc] items each. *)
Definition threads (np nc k : Z) (item : nat -> Z) : list (thread world Empty_set event) :=
  ((fun id => producer ((fun i => id * k + i)%Z <$> seqZ 0 k)) <$> seqZ 0 np)
  ++ ((fun _ => consumer item (Z.to_nat (np * k / nc))) <$> seqZ 0 nc).

(** The check at the end of the test: every expected value is found in
    [results]. *)
Definition all_found (np k : Z) (r : gset Z) : bool :=
  forallb (fun v => bool_decide (v ∈ r)) (seqZ 0 (np * k)).

(** How a run of the test ends. *)
Inductive verdict : Type :=
| Crashed                    (* a fault *)
| Unfinished                 (* the schedule ends before every join returns *)
| Finished (r : gset Z).     (* [results] once all threads are joined *)

Definition run_test (np nc k : Z) (item : nat -> Z) (sched : list nat) : verdict :=
  match exec sched {| queue := ctor; results := ∅; results_mutex := false |}
          (threads np nc k item) with
  | None => Crashed
  | Some (w, ts) => if joined ts then Finished (results w) else Unfinished
  end.

Definition test_concurrent_operations : (nat -> Z) -> list nat -> verdict :=
  run_test num_producers num_consumers items_per_producer.

End QueueThreads.

(** ** Facts about the execution monad *)

Module ExecFacts.
Section ExecFacts.
Context {St Exn Ev : Type}.
Abbreviation M' := (M St Exn Ev).

Lemma after_nil {A} (o : list Ev * result St Exn A) : after [] o = o.
Proof. by destruct o. Qed.

Lemma bind_run {A B} (c : M' A) (k : A -> M' B) s t a s1 :
  c s = (t, Ret a s1) -> bind c k s = after t (k a s1).
Proof. unfold bind. by intros ->. Qed.

(** When only the way a call ends matters, its events can be ignored. *)
Lemma bind_end {A B} (c : M' A) (k : A -> M' B) s a s1 :
  (c s).2 = Ret a s1 -> (bind c k s).2 = (k a s1).2.
Proof.
  unfold bind. destruct (c s) as [t r]; simpl. intros ->.
  by destruct (k a s1).
Qed.

Lemma scope_exit_run {A} (body : M' A) (dtor : M' unit) s t a s1 t' s2 :
  body s = (t, Ret a s1) -> dtor s1 = (t', Ret tt s2) ->
  scope_exit body dtor s = (t ++ t', Ret a s2).
Proof.
  unfold scope_exit, bind, after. intros -> ->. simpl. by rewrite app_nil_r.
Qed.

Lemma silent_ret {A} (a : A) : silent (ret a : M' A).
Proof. done. Qed.

Lemma silent_gets {A} (f : St -> A) : silent (gets f : M' A).
Proof. done. Qed.

Lemma silent_modify (f : St -> St) : silent (modify f : M' unit).
Proof. done. Qed.

Lemma silent_fault {A} : silent (fault : M' A).
Proof. done. Qed.

Lemma silent_bind {A B} (c : M' A) (k : A -> M' B) :
  silent c -> (forall a, silent (k a)) -> silent (bind c k).
Proof.
  intros Hc Hk s. unfold bind. specialize (Hc s).
  destruct (c s) as [t [a s1| | |]]; simpl in *; subst; try done.
  specialize (Hk a s1). by destruct (k a s1).
Qed.

Lemma silent_scope_exit {A} (body : M' A) (dtor : M' unit) :
  silent body -> silent dtor -> silent (scope_exit body dtor).
Proof.
  intros Hb Hd s. unfold scope_exit. specialize (Hb s).
  destruct (body s) as [t [a s1|e s1| |]]; simpl in *; subst; try done.
  - pose proof (silent_bind dtor (fun _ => ret a) Hd (fun _ => silent_ret a) s1) as H.
    by destruct (bind dtor _ s1).
  - pose proof (silent_bind dtor (fun _ => throw e : M' A) Hd
                  (fun _ _ => eq_refl) s1) as H.
    by destruct (bind dtor _ s1).
Qed.

(** What follows a call adds nothing to its events when it is silent. *)
Lemma bind_silent_trace {A B} (c : M' A) (k : A -> M' B) s :
  (forall a, silent (k a)) -> (bind c k s).1 = (c s).1.
Proof.
  intros Hk. unfold bind.
  destruct (c s) as [t [a s1| | |]]; simpl; try done.
  specialize (Hk a s1). destruct (k a s1); simpl in *; subst.
  by rewrite app_nil_r.
Qed.

(** A guarded scope whose body is silent emits the acquisition and the
    release when it completes, and at most the acquisition otherwise. *)
Lemma lock_guard_shape {A} held set e1 e2 (body : M' A) s :
  silent body ->
  match lock_guard (lock held set e1) (unlock set e2) body s with
  | (t, Ret _ _) | (t, Throw _ _) => t = [e1; e2]
  | (t, _) => t = [] \/ t = [e1]
  end.
Proof.
  intros Hb. unfold lock_guard, lock, unlock, scope_exit, bind.
  destruct (held s); simpl; [by left|].
  specialize (Hb (set true s)).
  destruct (body (set true s)) as [t [a s1|e s1|s1|]]; simpl in *; subst;
    simpl; auto.
Qed.

Lemma bind_assoc {A B C} (c : M' A) (k : A -> M' B) (k' : B -> M' C) s :
  bind (bind c k) k' s = bind c (fun a => bind (k a) k') s.
Proof.
  unfold bind. destruct (c s) as [t [a s1| | |]]; try reflexivity.
  destruct (k a s1) as [t1 [b s2| | |]]; simpl; try reflexivity.
  destruct (k' b s2) as [t2 r]; simpl.
  by rewrite app_assoc.
Qed.
End ExecFacts.
End ExecFacts.

(** ** Facts about the stack *)

Module StackFacts.
Import Stack ExecFacts.

Section StackFacts.
Context {T : Type}.
Implicit Types (s : threadsafe_stack T) (l : list T) (v : T).

Lemma stack_push_run v s :
  m s = false ->
  push v s = ([Lock; Unlock], Ret tt {| data := v :: data s; m := false |}).
Proof. destruct s as [d b]; simpl; intros ->. reflexivity. Qed.

Lemma stack_pop_run v d :
  pop {| data := v :: d; m := false |}
  = ([Lock; Unlock], Ret (Some v) {| data := d; m := false |}).
Proof. reflexivity. Qed.

Lemma stack_pop_ref_run v0 v d :
  pop_ref v0 {| data := v :: d; m := false |}
  = ([Lock; Unlock], Ret v {| data := d; m := false |}).
Proof. reflexivity. Qed.

Lemma stack_empty_run s :
  m s = false ->
  empty s = ([Lock; Unlock],
             Ret (match data s with [] => true | _ => false end) s).
Proof. destruct s as [d b]; simpl; intros ->. reflexivity. Qed.

Lemma for_each_push l d :
  (for_each push l {| data := d; m := false |}).2
  = Ret tt {| data := rev l ++ d; m := false |}.
Proof.
  revert d. induction l as [|v l IH]; intros d; [reflexivity|].
  cbn [for_each]. erewrite bind_end by (rewrite stack_push_run; reflexivity).
  rewrite IH. cbn [data rev]. by rewrite <- app_assoc.
Qed.

Lemma collect_pop l d :
  (collect (length l) pop {| data := l ++ d; m := false |}).2
  = Ret (Some <$> l) {| data := d; m := false |}.
Proof.
  induction l as [|v l IH]; [reflexivity|].
  cbn [length collect app]. erewrite bind_end by (rewrite stack_pop_run; reflexivity).
  erewrite bind_end by exact IH. reflexivity.
Qed.

Lemma thread_pop_ref l d v0 :
  (thread (length l) pop_ref v0 {| data := l ++ d; m := false |}).2
  = Ret l {| data := d; m := false |}.
Proof.
  revert v0. induction l as [|v l IH]; intros v0; [reflexivity|].
  cbn [length thread app]. erewrite bind_end by (rewrite stack_pop_ref_run; reflexivity).
  erewrite bind_end by apply IH. reflexivity.
Qed.

(** C2 (stack LIFO law).  Whatever values [l] = a1..an are pushed in
    that order onto a freshly constructed stack, the n following pops
    all return, they deliver an, ..., a1 in that order (through the
    returned pointer for [pop()], through the reference for
    [pop(value)]), and [empty] then answers true; the stack is again
    the freshly constructed one. *)
Theorem stack_lifo_law l v0 :
  (pop_all l ctor).2 = Ret (Some <$> rev l, true) ctor
  /\ (pop_all_ref l v0 ctor).2 = Ret (rev l, true) ctor.
Proof.
  unfold pop_all, pop_all_ref, ctor. split.
  - erewrite bind_end by apply for_each_push.
    rewrite <- (length_rev l).
    erewrite bind_end by apply collect_pop.
    erewrite bind_end by (rewrite stack_empty_run; reflexivity).
    reflexivity.
  - erewrite bind_end by apply for_each_push.
    rewrite <- (length_rev l).
    erewrite bind_end by apply thread_pop_ref.
    erewrite bind_end by (rewrite stack_empty_run; reflexivity).
    reflexivity.
Qed.

(** C4 (empty-pop failure).  On a stack that holds no element and whose
    mutex is free, both [pop] overloads end by throwing [empty_stack]
    (they neither return nor suspend the caller), after taking and
    releasing the mutex, and the stack they leave is the stack they
    found; [empty] never throws, whatever the stack. *)
Theorem pop_empty_throws s v0 :
  data s = [] -> m s = false ->
  pop s = ([Lock; Unlock], Throw empty_stack s)
  /\ pop_ref v0 s = ([Lock; Unlock], Throw empty_stack s)
  /\ (forall s' e s'', (empty s').2 <> Throw e s'').
Proof.
  destruct s as [d b]; simpl; intros -> ->. repeat split.
  intros [d' [|]] e s''; destruct d'; discriminate.
Qed.
End StackFacts.

Lemma pop_empty_throws_witness :
  data (@ctor Z) = [] /\ m (@ctor Z) = false
  /\ pop (@ctor Z) = ([Lock; Unlock], Throw empty_stack ctor)
  /\ pop_ref 7%Z ctor = ([Lock; Unlock], Throw empty_stack ctor).
Proof.
  split; [reflexivity|]. split; [reflexivity|].
  destruct (pop_empty_throws (@ctor Z) 7%Z eq_refl eq_refl) as (H1 & H2 & _).
  exact (conj H1 H2).
Defined.

Section CopyFacts.
Context {T : Type}.
Implicit Types (s : threadsafe_stack T) (st : gmap addr (threadsafe_stack T)).

(** A member function run on one object leaves every other object of
    the store as it was, its mutex included. *)
Lemma call_frame {A} (this other : addr) (f : M (threadsafe_stack T) exn event A) st st' :
  this <> other ->
  state_of (call this f st).2 = Some st' ->
  st' !! other = st !! other.
Proof.
  intros Hne. unfold call. destruct (st !! this) as [o|]; [|discriminate].
  destruct (f o) as [t [a o'|e o'|o'|]]; simpl; intros [= <-];
    by rewrite lookup_insert_ne.
Qed.

(** It only emits events of the object it runs on. *)
Lemma call_events {A} (this : addr) (f : M (threadsafe_stack T) exn event A) st :
  Forall (fun e => e.1 = this) (call this f st).1.
Proof.
  unfold call. destruct (st !! this) as [o|]; [|constructor].
  destruct (f o) as [t r]; simpl. apply Forall_fmap, Forall_true. done.
Qed.

Lemma call_ret {A} (this : addr) (f : M (threadsafe_stack T) exn event A) st o t a o' :
  st !! this = Some o -> f o = (t, Ret a o') ->
  call this f st = (pair this <$> t, Ret a (<[this := o']> st)).
Proof. unfold call. by intros -> ->. Qed.

Lemma copy_ctor_run (this other : addr) st s :
  st !! other = Some s -> m s = false -> st !! this = None ->
  copy_ctor this other st
  = ([(other, Lock); (other, Unlock)],
     Ret tt (<[this := {| data := data s; m := false |}]> st)).
Proof.
  intros Ho Hm Ht.
  assert (this <> other) as Hne by congruence.
  destruct s as [d b]; simpl in Hm; subst b.
  unfold copy_ctor, lock_guard.
  erewrite bind_run by reflexivity. rewrite after_nil.
  erewrite bind_run; cycle 1.
  { eapply call_ret; [by rewrite lookup_insert_ne|reflexivity]. }
  erewrite scope_exit_run; cycle 1.
  { erewrite bind_run; cycle 1.
    { eapply call_ret; [by rewrite lookup_insert_eq|reflexivity]. }
    simpl (_ <$> _). rewrite after_nil.
    eapply call_ret; [|reflexivity].
    by rewrite lookup_insert_ne, lookup_insert_ne, lookup_insert_eq. }
  { eapply call_ret; [|reflexivity].
    by rewrite lookup_insert_ne, lookup_insert_eq. }
  unfold after; simpl. do 2 f_equal.
  apply map_eq; intros i.
  destruct (decide (i = other)) as [->|]; [|destruct (decide (i = this)) as [->|]];
    by simplify_map_eq.
Qed.

(** C8 (copy construction).  Copy-constructing at fresh storage [this]
    from a stack [other] whose mutex is free returns after taking and
    releasing the source's mutex only; the new object holds the
    source's elements in the source's order, its own mutex is free, and
    the source is as it was.  The two mutexes are distinct objects:
    whatever member function later runs on one of the two stacks, and
    however it ends, emits events on that stack's mutex alone and
    leaves the other stack, mutex included, untouched. *)
Theorem copy_ctor_independent (this other : addr) st s :
  st !! other = Some s -> m s = false -> st !! this = None ->
  exists st',
    copy_ctor this other st = ([(other, Lock); (other, Unlock)], Ret tt st')
    /\ st' !! this = Some {| data := data s; m := false |}
    /\ st' !! other = Some s
    /\ (forall a, a <> this -> st' !! a = st !! a)
    /\ (forall A (f : M (threadsafe_stack T) exn event A) st'',
          state_of (call this f st').2 = Some st'' ->
          st'' !! other = Some s
          /\ Forall (fun e => e.1 = this) (call this f st').1)
    /\ (forall A (f : M (threadsafe_stack T) exn event A) st'',
          state_of (call other f st').2 = Some st'' ->
          st'' !! this = Some {| data := data s; m := false |}
          /\ Forall (fun e => e.1 = other) (call other f st').1).
Proof.
  intros Ho Hm Ht.
  assert (this <> other) as Hne by congruence.
  eexists. split; [by apply copy_ctor_run|].
  assert (forall a, a <> this ->
    (<[this := {| data := data s; m := false |}]> st) !! a = st !! a) as Hfr
    by (intros a Ha; by rewrite lookup_insert_ne).
  repeat split.
  - by rewrite lookup_insert_eq.
  - by rewrite Hfr.
  - done.
  - erewrite call_frame by eassumption. by rewrite Hfr.
  - apply call_events.
  - erewrite call_frame by eauto. by rewrite lookup_insert_eq.
  - apply call_events.
Qed.
End CopyFacts.

Lemma copy_ctor_independent_witness :
  exists st',
    copy_ctor 1 0 {[ 0 := a_stack ]} = ([(0, Lock); (0, Unlock)], Ret tt st')
    /\ st' !! 1 = Some a_stack
    /\ st' !! 0 = Some a_stack.
Proof.
  destruct (copy_ctor_independent 1 0 {[ 0 := a_stack ]} a_stack)
    as (st' & H1 & H2 & H3 & _); [reflexivity..|].
  exists st'. exact (conj H1 (conj H2 H3)).
Defined.

End StackFacts.

(** ** Facts about the queue *)

Module QueueFacts.
Import Queue ExecFacts.

Section QueueFacts.
Context {T : Type}.
Implicit Types (q : threadsafe_queue T) (l : list T) (v : T)
  (h : gmap addr (node T)) (p : option addr).

Lemma get_tail_run q :
  tail_mutex q = false ->
  get_tail q = ([LockTail; UnlockTail], Ret (tail q) q).
Proof. destruct q; simpl; intros ->. reflexivity. Qed.

Lemma delete_chain_null fuel q : delete_chain fuel None q = ([], Ret tt q).
Proof. by destruct fuel. Qed.

Lemma destroy_null q : destroy None q = ([], Ret tt q).
Proof. reflexivity. Qed.

Lemma try_pop_head_empty q :
  head q = tail q -> head_mutex q = false -> tail_mutex q = false ->
  try_pop_head q = ([LockHead; LockTail; UnlockTail; UnlockHead], Ret None q).
Proof.
  destruct q as [h b hm tm hd tl]; simpl; intros -> -> ->.
  unfold try_pop_head, lock_guard, scope_exit, bind; simpl.
  rewrite bool_decide_eq_true_2 by done. reflexivity.
Qed.

Lemma try_pop_head_ref_empty q v :
  head q = tail q -> head_mutex q = false -> tail_mutex q = false ->
  try_pop_head_ref v q
  = ([LockHead; LockTail; UnlockTail; UnlockHead], Ret (None, v) q).
Proof.
  destruct q as [h b hm tm hd tl]; simpl; intros -> -> ->.
  unfold try_pop_head_ref, lock_guard, scope_exit, bind; simpl.
  rewrite bool_decide_eq_true_2 by done. reflexivity.
Qed.

Lemma try_pop_empty q :
  head q = tail q -> head_mutex q = false -> tail_mutex q = false ->
  try_pop q = ([LockHead; LockTail; UnlockTail; UnlockHead], Ret None q).
Proof.
  intros. unfold try_pop.
  erewrite bind_run by by apply try_pop_head_empty. reflexivity.
Qed.

Lemma try_pop_ref_empty q v :
  head q = tail q -> head_mutex q = false -> tail_mutex q = false ->
  try_pop_ref v q
  = ([LockHead; LockTail; UnlockTail; UnlockHead], Ret (false, v) q).
Proof.
  intros. unfold try_pop_ref.
  erewrite bind_run by by apply try_pop_head_ref_empty. reflexivity.
Qed.

Lemma empty_run q :
  head_mutex q = false -> tail_mutex q = false ->
  empty q = ([LockHead; LockTail; UnlockTail; UnlockHead],
             Ret (bool_decide (head q = tail q)) q).
Proof.
  destruct q as [h b hm tm hd tl]; simpl; intros -> ->. reflexivity.
Qed.

Lemma wait_for_data_empty q :
  head q = tail q -> head_mutex q = false -> tail_mutex q = false ->
  wait_for_data q
  = ([LockHead; LockTail; UnlockTail; UnlockHead; Wait], Block q).
Proof.
  destruct q as [h b hm tm hd tl]; simpl; intros -> -> ->.
  unfold wait_for_data, bind; simpl.
  rewrite bool_decide_eq_false_2 by (intros ?; done). reflexivity.
Qed.

(** *** One call on a concrete shape of state *)

Lemma push_run q v t n :
  tail q = Some t -> heap q !! t = Some n -> next n = None ->
  t <> brk q -> tail_mutex q = false ->
  push v q
  = ([LockTail; UnlockTail; NotifyOne],
     Ret tt {| heap := <[t := {| data := Some v; next := Some (brk q) |}]>
                         (<[brk q := empty_node]> (heap q));
               brk := S (brk q);
               head_mutex := head_mutex q; tail_mutex := false;
               head := head q; tail := Some (brk q) |}).
Proof.
  destruct q as [h b hm tm hd tl], n as [d nx]; simpl.
  intros -> Ht -> Hne ->.
  unfold push, lock_guard, scope_exit, store, load, bind; simpl.
  repeat (first [rewrite lookup_insert_ne by done | rewrite lookup_insert_eq
                | rewrite Ht]; simpl).

  by rewrite insert_insert_eq.
Qed.

Lemma pop_head_run q a n :
  head q = Some a -> heap q !! a = Some n ->
  pop_head q
  = ([], Ret (Some a)
           (set_head (next n)
              (set_heap (<[a := {| data := data n; next := None |}]> (heap q)) q))).
Proof.
  destruct q as [h b hm tm hd tl]; simpl. intros -> Ha.
  unfold pop_head, store, load, bind; simpl.
  repeat (rewrite Ha; simpl). reflexivity.
Qed.

Lemma destroy_last q a n :
  heap q !! a = Some n -> next n = None ->
  destroy (Some a) q = ([], Ret tt (set_heap (delete a (heap q)) q)).
Proof.
  destruct q as [h b hm tm hd tl], n as [d nx]; simpl. intros Ha ->.
  unfold destroy, gets, bind. cbn [delete_chain]. unfold load, bind.
  cbn [heap]. rewrite Ha. cbn [next]. rewrite delete_chain_null.
  reflexivity.
Qed.

Lemma try_pop_head_run q a n :
  head q = Some a -> tail q <> Some a -> heap q !! a = Some n ->
  head_mutex q = false -> tail_mutex q = false ->
  try_pop_head q
  = ([LockHead; LockTail; UnlockTail; UnlockHead],
     Ret (Some a)
       (set_head (next n)
          (set_heap (<[a := {| data := data n; next := None |}]> (heap q)) q))).
Proof.
  destruct q as [h b hm tm hd tl]; simpl. intros -> Hne Ha -> ->.
  unfold try_pop_head, lock_guard, scope_exit, bind; simpl.
  rewrite bool_decide_eq_false_2 by congruence.
  erewrite pop_head_run by (simpl; done). reflexivity.
Qed.

Lemma try_pop_run q a n :
  head q = Some a -> tail q <> Some a -> heap q !! a = Some n ->
  head_mutex q = false -> tail_mutex q = false ->
  try_pop q
  = ([LockHead; LockTail; UnlockTail; UnlockHead],
     Ret (data n) (set_head (next n) (set_heap (delete a (heap q)) q))).
Proof.
  intros Hh Hne Ha Hhm Htm. unfold try_pop.
  erewrite bind_run by by eapply try_pop_head_run.
  erewrite scope_exit_run; cycle 1.
  { unfold bind, load; simpl. rewrite lookup_insert_eq. reflexivity. }
  { eapply destroy_last; simpl; [apply lookup_insert_eq|done]. }
  simpl. unfold set_heap; simpl. by rewrite delete_insert_eq.
Qed.

Lemma try_pop_head_ref_run q a n x v :
  head q = Some a -> tail q <> Some a -> heap q !! a = Some n ->
  data n = Some x ->
  head_mutex q = false -> tail_mutex q = false ->
  try_pop_head_ref v q
  = ([LockHead; LockTail; UnlockTail; UnlockHead],
     Ret (Some a, x)
       (set_head (next n)
          (set_heap (<[a := {| data := data n; next := None |}]> (heap q)) q))).
Proof.
  destruct q as [h b hm tm hd tl], n as [d nx]; simpl.
  intros -> Hne Ha -> -> ->.
  unfold try_pop_head_ref, lock_guard, scope_exit, bind; simpl.
  rewrite bool_decide_eq_false_2 by congruence.
  unfold load; simpl. rewrite Ha; simpl.
  erewrite pop_head_run by (simpl; done). reflexivity.
Qed.

Lemma try_pop_ref_run q a n x v :
  head q = Some a -> tail q <> Some a -> heap q !! a = Some n ->
  data n = Some x ->
  head_mutex q = false -> tail_mutex q = false ->
  try_pop_ref v q
  = ([LockHead; LockTail; UnlockTail; UnlockHead],
     Ret (true, x) (set_head (next n) (set_heap (delete a (heap q)) q))).
Proof.
  intros Hh Hne Ha Hx Hhm Htm. unfold try_pop_ref.
  erewrite bind_run by by eapply try_pop_head_ref_run.
  erewrite scope_exit_run; cycle 1.
  { reflexivity. }
  { eapply destroy_last; simpl; [apply lookup_insert_eq|done]. }
  simpl. unfold set_heap; simpl. by rewrite delete_insert_eq.
Qed.

(** *** Blocking and non-blocking removal *)

Lemma pop_head_ret q t r q' :
  pop_head q = (t, Ret r q') -> is_Some r.
Proof.
  destruct q as [h b hm tm hd tl].
  unfold pop_head, store, load, bind; simpl.
  destruct hd as [a|]; simpl; [|discriminate].
  destruct (h !! a) as [n|] eqn:Ha; simpl; [|discriminate].
  rewrite Ha; simpl. intros [= <- <- <-]. eauto.
Qed.

Lemma wait_pop_head_try q :
  head q <> tail q -> wait_pop_head q = try_pop_head q.
Proof.
  destruct q as [h b hm tm hd tl]; simpl; intros Hne.
  unfold wait_pop_head, try_pop_head, wait_for_data, lock_guard, scope_exit,
    bind, head_lock, get_tail, lock_guard, scope_exit, bind, tail_lock, lock;
    simpl.
  destruct hm; [reflexivity|]; simpl. destruct tm; [reflexivity|]; simpl.
  rewrite bool_decide_eq_true_2, bool_decide_eq_false_2 by done; simpl.
  destruct (pop_head _) as [t [r q'|[]|q'|]]; reflexivity.
Qed.

Lemma wait_pop_head_ref_try q v :
  head q <> tail q -> wait_pop_head_ref v q = try_pop_head_ref v q.
Proof.
  destruct q as [h b hm tm hd tl]; simpl; intros Hne.
  unfold wait_pop_head_ref, try_pop_head_ref, wait_for_data, lock_guard,
    scope_exit, bind, head_lock, get_tail, lock_guard, scope_exit, bind,
    tail_lock, lock; simpl.
  destruct hm; [reflexivity|]; simpl. destruct tm; [reflexivity|]; simpl.
  rewrite bool_decide_eq_true_2, bool_decide_eq_false_2 by done; simpl.
  destruct (load hd _) as [t [n q'|[]|q'|]]; simpl; try reflexivity.
  destruct (deref (data n) q') as [t1 [x q1|[]|q1|]]; simpl; try reflexivity.
  destruct (pop_head q1) as [t2 [r q2|[]|q2|]]; reflexivity.
Qed.

Lemma try_pop_head_ret q t r q' :
  head q <> tail q -> try_pop_head q = (t, Ret r q') -> is_Some r.
Proof.
  destruct q as [h b hm tm hd tl]; simpl; intros Hne.
  unfold try_pop_head, lock_guard, scope_exit, bind, head_lock, get_tail,
    lock_guard, scope_exit, bind, tail_lock, lock; simpl.
  destruct hm; [discriminate|]; simpl. destruct tm; [discriminate|]; simpl.
  rewrite bool_decide_eq_false_2 by done; simpl.
  destruct (pop_head _) as [t1 [r1 q1|[]|q1|]] eqn:E; simpl; try discriminate.
  intros [= <- <- <-]. by eapply pop_head_ret.
Qed.

Lemma wait_and_pop_try q :
  head q <> tail q -> wait_and_pop q = try_pop q.
Proof.
  intros Hne. unfold wait_and_pop, try_pop, bind.
  rewrite wait_pop_head_try by done.
  destruct (try_pop_head q) as [t [r q'|[]|q'|]] eqn:E; try reflexivity.
  destruct (try_pop_head_ret _ _ _ _ Hne E) as [a ->]. reflexivity.
Qed.

Lemma try_pop_head_ref_ret q v t r q' :
  head q <> tail q -> try_pop_head_ref v q = (t, Ret r q') -> is_Some r.1.
Proof.
  destruct q as [h b hm tm hd tl]; simpl; intros Hne.
  unfold try_pop_head_ref, lock_guard, scope_exit, bind, head_lock, get_tail,
    lock_guard, scope_exit, bind, tail_lock, lock; simpl.
  destruct hm; [discriminate|]; simpl. destruct tm; [discriminate|]; simpl.
  rewrite bool_decide_eq_false_2 by done; simpl.
  destruct (load hd _) as [t0 [n q0|[]|q0|]]; simpl; try discriminate.
  destruct (deref (data n) q0) as [t1 [x q1|[]|q1|]]; simpl; try discriminate.
  destruct (pop_head q1) as [t2 [r2 q2|[]|q2|]] eqn:E; simpl; try discriminate.
  intros [= <- <- <-]. by eapply pop_head_ret.
Qed.

Lemma wait_and_pop_ref_try q v :
  head q <> tail q ->
  try_pop_ref v q = map_ret (pair true) (wait_and_pop_ref v) q.
Proof.
  intros Hne. unfold wait_and_pop_ref, try_pop_ref, map_ret, bind.
  rewrite wait_pop_head_ref_try by done.
  destruct (try_pop_head_ref v q) as [t [[r x] q'|[]|q'|]] eqn:E; try reflexivity.
  destruct (try_pop_head_ref_ret _ _ _ _ _ Hne E) as [a Hr].
  simpl in Hr; subst r. unfold scope_exit, bind; simpl.
  destruct (destroy (Some a) q') as [t1 [[] q1|[]|q1|]]; simpl;
    by rewrite ?app_nil_r.
Qed.

(** *** List segments *)

Lemma lseg_le h a l t : lseg h a l t -> a <= t.
Proof.
  revert a. induction l as [|v l IH]; simpl; intros a.
  - intros ->. lia.
  - intros (n & _ & Hlt & Hseg). apply IH in Hseg. lia.
Qed.

(** A segment only depends on the cells strictly before its end. *)
Lemma lseg_ext h h' a l t :
  (forall i, a <= i < t -> h' !! i = h !! i) ->
  lseg h a l t -> lseg h' a l t.
Proof.
  revert a. induction l as [|v l IH]; simpl; intros a Hext; [done|].
  intros (n & Ha & Hlt & Hseg). exists n.
  pose proof (lseg_le _ _ _ _ Hseg).
  split; [rewrite Hext; [done|lia]|]. split; [done|].
  apply IH; [|done]. intros i Hi. apply Hext. lia.
Qed.

Lemma lseg_app h a l t l' t' :
  lseg h a l t -> lseg h t l' t' -> lseg h a (l ++ l') t'.
Proof.
  revert a. induction l as [|v l IH]; simpl; intros a.
  - by intros ->.
  - intros (n & Ha & Hlt & Hseg) Hseg'. exists n. eauto.
Qed.

Lemma lseg_empty_iff h a l t :
  lseg h a l t -> h !! t = Some empty_node -> l = [] <-> a = t.
Proof.
  destruct l as [|v l]; simpl.
  - intros -> _. done.
  - intros (n & Ha & _ & _) Ht. split; [done|].
    intros ->. rewrite Ha in Ht. discriminate.
Qed.

(** Walking the chain of a segment that ends in an empty node. *)
Lemma chain_lseg fuel h a l t :
  lseg h a l t -> h !! t = Some empty_node -> t < fuel + a ->
  length (chain fuel h (Some a)) = S (length l)
  /\ slot h <$> chain fuel h (Some a) = (Some <$> l) ++ [None]
  /\ last (chain fuel h (Some a)) = Some t.
Proof.
  revert fuel a. induction l as [|v l IH]; simpl; intros fuel a.
  - intros -> Ht Hlt. destruct fuel as [|fuel]; [lia|]. simpl.
    rewrite Ht; simpl. destruct fuel; simpl; unfold slot; by rewrite Ht.
  - intros (n & Ha & Hlt & Hseg) Ht Hf.
    pose proof (lseg_le _ _ _ _ Hseg).
    destruct fuel as [|fuel]; [lia|]. cbn [chain]. rewrite Ha; cbn [next].
    destruct (IH fuel n Hseg Ht ltac:(lia)) as (IH1 & IH2 & IH3).
    rewrite fmap_cons, IH2. cbn [length]. rewrite IH1. repeat split.
    + unfold slot at 1. by rewrite Ha.
    + destruct (chain fuel h (Some n)); [discriminate|done].
Qed.

(** *** The representation is kept by every call *)

Lemma repr_ctor : repr (@ctor T) [].
Proof.
  exists 0, 0. simpl. repeat split; try done.
  - intros i [x Hi]. apply lookup_singleton_Some in Hi as [<- _]. lia.
Qed.

Lemma repr_empty_iff q l : repr q l -> l = [] <-> head q = tail q.
Proof.
  intros (a & t & -> & -> & Hseg & Ht & _).
  rewrite (lseg_empty_iff _ _ _ _ Hseg Ht). split; congruence.
Qed.

Lemma repr_nodes q l :
  repr q l ->
  length (nodes q) = S (length l) /\ payloads q = (Some <$> l) ++ [None]
  /\ last (nodes q) = tail q.
Proof.
  intros (a & t & Hh & Htl & Hseg & Ht & Hb & _).
  unfold payloads, nodes. rewrite Hh, Htl.
  assert (t < brk q + a) by (specialize (Hb t ltac:(eauto)); lia).
  destruct (chain_lseg (brk q) _ _ _ _ Hseg Ht) as (H1 & H2 & H3); [done|].
  by rewrite H1, H2, H3.
Qed.

Lemma repr_push q l v :
  repr q l ->
  exists t q',
    tail q = Some t
    /\ push v q = ([LockTail; UnlockTail; NotifyOne], Ret tt q')
    /\ q' = {| heap := <[t := {| data := Some v; next := Some (brk q) |}]>
                        (<[brk q := empty_node]> (heap q));
               brk := S (brk q);
               head_mutex := false; tail_mutex := false;
               head := head q; tail := Some (brk q) |}
    /\ heap q !! brk q = None
    /\ repr q' (l ++ [v]).
Proof.
  intros (a & t & Hh & Htl & Hseg & Ht & Hb & Hsz & Hhm & Htm).
  assert (t < brk q) as Hlt by (apply Hb; eauto).
  assert (heap q !! brk q = None) as Hfresh.
  { destruct (heap q !! brk q) eqn:E; [|done].
    specialize (Hb (brk q) ltac:(eauto)). lia. }
  eexists t, _. split; [done|]. split.
  { erewrite push_run by (eauto; lia). by rewrite Hhm. }
  split; [reflexivity|]. split; [done|].
  exists a, (brk q). simpl. repeat split; try done.
  - eapply lseg_app.
    + eapply lseg_ext; [|exact Hseg]. intros i Hi.
      rewrite !lookup_insert_ne by lia. done.
    + simpl. exists (brk q). by rewrite lookup_insert_eq.
  - rewrite lookup_insert_ne by lia. by rewrite lookup_insert_eq.
  - intros i Hi. destruct (decide (i = t)) as [->|]; [lia|].
    destruct (decide (i = brk q)) as [->|]; [lia|].
    rewrite !lookup_insert_ne in Hi by done. apply Hb in Hi. lia.
  - rewrite map_size_insert_Some by (rewrite lookup_insert_ne by lia; eauto).
    rewrite map_size_insert_None by done.
    rewrite Hsz, length_app. simpl. lia.
Qed.

(** The state after the oldest node [a], whose link leads to [n], has
    been unlinked and destroyed. *)
Lemma repr_unlink q a n v l :
  head q = Some a ->
  heap q !! a = Some {| data := Some v; next := Some n |} ->
  repr q (v :: l) ->
  repr (set_head (Some n) (set_heap (delete a (heap q)) q)) l.
Proof.
  intros Hh Ha (a' & t & Hh' & Htl & Hseg & Ht & Hb & Hsz & Hhm & Htm).
  assert (a' = a) as -> by congruence.
  destruct Hseg as (n' & Ha' & Hlt & Hseg).
  assert (n' = n) as -> by congruence.
  pose proof (lseg_le _ _ _ _ Hseg).
  exists n, t. simpl. repeat split; try done.
  - eapply lseg_ext; [|exact Hseg]. intros i Hi.
    by rewrite lookup_delete_ne by lia.
  - by rewrite lookup_delete_ne by lia.
  - intros i Hi. destruct (decide (i = a)) as [->|].
    + rewrite lookup_delete_eq in Hi. by destruct Hi.
    + rewrite lookup_delete_ne in Hi by done. by apply Hb.
  - rewrite map_size_delete_Some by eauto. rewrite Hsz. done.
Qed.

Lemma repr_front q v l :
  repr q (v :: l) ->
  exists a n,
    head q = Some a /\ tail q <> Some a
    /\ heap q !! a = Some {| data := Some v; next := Some n |}
    /\ head_mutex q = false /\ tail_mutex q = false.
Proof.
  intros (a & t & Hh & Htl & (n & Ha & Hlt & Hseg) & Ht & Hb & Hsz & Hhm & Htm).
  pose proof (lseg_le _ _ _ _ Hseg).
  exists a, n. repeat split; try done. rewrite Htl. intros [= ->]. lia.
Qed.

Lemma repr_try_pop q v l :
  repr q (v :: l) ->
  exists q',
    try_pop q = ([LockHead; LockTail; UnlockTail; UnlockHead], Ret (Some v) q')
    /\ repr q' l.
Proof.
  intros Hr. destruct (repr_front _ _ _ Hr) as (a & n & Hh & Hne & Ha & Hhm & Htm).
  eexists. split; [by rewrite (try_pop_run q a _ Hh Hne Ha Hhm Htm)|].
  by eapply repr_unlink.
Qed.

Lemma repr_try_pop_ref q v l x :
  repr q (v :: l) ->
  exists q',
    try_pop_ref x q
    = ([LockHead; LockTail; UnlockTail; UnlockHead], Ret (true, v) q')
    /\ repr q' l.
Proof.
  intros Hr. destruct (repr_front _ _ _ Hr) as (a & n & Hh & Hne & Ha & Hhm & Htm).
  eexists.
  split; [by rewrite (try_pop_ref_run q a _ v x Hh Hne Ha eq_refl Hhm Htm)|].
  by eapply repr_unlink.
Qed.

Lemma repr_unlocked q l :
  repr q l -> head_mutex q = false /\ tail_mutex q = false.
Proof. intros (a & t & _ & _ & _ & _ & _ & _ & Hhm & Htm). done. Qed.

Lemma wait_and_pop_empty q :
  head q = tail q -> head_mutex q = false -> tail_mutex q = false ->
  wait_and_pop q
  = ([LockHead; LockTail; UnlockTail; UnlockHead; Wait], Block q).
Proof.
  intros. unfold wait_and_pop, wait_pop_head, bind.
  by rewrite wait_for_data_empty.
Qed.

Lemma wait_and_pop_ref_empty q x :
  head q = tail q -> head_mutex q = false -> tail_mutex q = false ->
  wait_and_pop_ref x q
  = ([LockHead; LockTail; UnlockTail; UnlockHead; Wait], Block q).
Proof.
  intros. unfold wait_and_pop_ref, wait_pop_head_ref, bind.
  by rewrite wait_for_data_empty.
Qed.

Lemma map_ret_inv {A B} (f : A -> B) (c : M (threadsafe_queue T) Empty_set event A)
    q t b q' :
  map_ret f c q = (t, Ret b q') ->
  exists a, c q = (t, Ret a q') /\ b = f a.
Proof.
  unfold map_ret, bind, ret. destruct (c q) as [t0 [a q0|[]|q0|]]; simpl;
    try discriminate.
  rewrite app_nil_r. intros [= <- <- <-]. eauto.
Qed.

Lemma repr_wait_and_pop q v l :
  repr q (v :: l) ->
  exists q',
    wait_and_pop q
    = ([LockHead; LockTail; UnlockTail; UnlockHead], Ret (Some v) q')
    /\ repr q' l.
Proof.
  intros Hr. rewrite wait_and_pop_try; [by apply repr_try_pop|].
  intros He. by apply (repr_empty_iff _ _ Hr) in He.
Qed.

Lemma repr_wait_and_pop_ref q v l x :
  repr q (v :: l) ->
  exists q',
    wait_and_pop_ref x q
    = ([LockHead; LockTail; UnlockTail; UnlockHead], Ret v q')
    /\ repr q' l.
Proof.
  intros Hr. destruct (repr_try_pop_ref _ _ _ x Hr) as (q' & Hrun & Hr').
  rewrite wait_and_pop_ref_try in Hrun.
  - apply map_ret_inv in Hrun as (a & Hrun & [= ->]). eauto.
  - intros He. by apply (repr_empty_iff _ _ Hr) in He.
Qed.

(** Every call on a represented queue returns or suspends its caller
    (it never faults), hands out what [delivered] says, and leaves a
    represented queue. *)
Lemma run_repr (o : op T) q l :
  repr q l ->
  exists t r,
    run o q = (t, r)
    /\ t = match o, l with
           | Push _, _ => [LockTail; UnlockTail; NotifyOne]
           | (WaitAndPop | WaitAndPopRef _), [] =>
               [LockHead; LockTail; UnlockTail; UnlockHead; Wait]
           | _, _ => [LockHead; LockTail; UnlockTail; UnlockHead]
           end
    /\ match r with
       | Ret out q' => out = delivered o l /\ repr q' (pending o out l)
       | Block q' => q' = q /\ l = []
       | _ => False
       end.
Proof.
  intros Hr. pose proof (repr_unlocked _ _ Hr) as [Hhm Htm].
  pose proof (repr_empty_iff _ _ Hr) as Hemp.
  destruct o as [v| |x| |x|]; simpl.
  - destruct (repr_push _ _ v Hr) as (t & q' & _ & Hrun & _ & _ & Hr').
    do 2 eexists. split; [by erewrite bind_run by exact Hrun|]. done.
  - destruct l as [|v l].
    + do 2 eexists. split; [by apply try_pop_empty; [apply Hemp|..]|]. done.
    + destruct (repr_try_pop _ _ _ Hr) as (q' & Hrun & Hr').
      do 2 eexists. split; [exact Hrun|]. done.
  - destruct l as [|v l].
    + do 2 eexists.
      split; [by erewrite bind_run by by apply try_pop_ref_empty; [apply Hemp|..]|].
      done.
    + destruct (repr_try_pop_ref _ _ _ x Hr) as (q' & Hrun & Hr').
      do 2 eexists. split; [by erewrite bind_run by exact Hrun|]. done.
  - destruct l as [|v l].
    + do 2 eexists. split; [by apply wait_and_pop_empty; [apply Hemp|..]|]. done.
    + destruct (repr_wait_and_pop _ _ _ Hr) as (q' & Hrun & Hr').
      do 2 eexists. split; [exact Hrun|]. done.
  - destruct l as [|v l].
    + exists [LockHead; LockTail; UnlockTail; UnlockHead; Wait], (Block q).
      split; [|done]. unfold bind.
      by rewrite wait_and_pop_ref_empty by (done || by apply Hemp).
    + destruct (repr_wait_and_pop_ref _ _ _ x Hr) as (q' & Hrun & Hr').
      do 2 eexists. split; [by erewrite bind_run by exact Hrun|]. done.
  - do 2 eexists. split; [by erewrite bind_run by by apply empty_run|]. done.
Qed.

Lemma reach_repr q l : reach q l -> repr q l.
Proof.
  induction 1 as [|o q l t out q' _ IH Hrun|o q l t q' _ IH Hrun].
  - apply repr_ctor.
  - destruct (run_repr o _ _ IH) as (t' & r & Hrun' & Hpost).
    rewrite Hrun in Hrun'. injection Hrun' as <- <-. by destruct Hpost as (_ & _ & ?).
  - destruct (run_repr o _ _ IH) as (t' & r & Hrun' & Hpost).
    rewrite Hrun in Hrun'. injection Hrun' as <- <-. by destruct Hpost as (_ & -> & _).
Qed.

(** *** Events of each call, from any state *)

Lemma silent_load p : silent (@load T p).
Proof. intros q. unfold load. by repeat case_match. Qed.

Lemma silent_store p (n : node T) : silent (store p n).
Proof.
  apply silent_bind; [apply silent_load|]. intros _.
  destruct p; [apply silent_modify|apply silent_fault].
Qed.

Lemma silent_deref (sp : shared_ptr T) : silent (deref sp).
Proof. destruct sp; [apply silent_ret|apply silent_fault]. Qed.

Lemma silent_delete_chain fuel p : silent (@delete_chain T fuel p).
Proof.
  revert p. induction fuel as [|fuel IH]; intros [a|]; simpl;
    try apply silent_ret; try apply silent_fault.
  apply silent_bind; [apply silent_load|]. intros n.
  apply silent_bind; [apply IH|]. intros _. apply silent_modify.
Qed.

Lemma silent_destroy p : silent (@destroy T p).
Proof.
  apply silent_bind; [apply silent_gets|]. intros h.
  apply silent_delete_chain.
Qed.

Lemma silent_pop_head : silent (@pop_head T).
Proof.
  repeat first
    [ apply silent_ret | apply silent_gets | apply silent_modify
    | apply silent_load | apply silent_store | apply silent_destroy
    | apply silent_bind; [|intros ?] ].
Qed.

Lemma try_pop_head_trace q :
  In (try_pop_head q).1
     [[]; [LockHead]; [LockHead; LockTail; UnlockTail];
      [LockHead; LockTail; UnlockTail; UnlockHead]].
Proof.
  destruct q as [h b hm tm hd tl].
  unfold try_pop_head, lock_guard, scope_exit, bind, head_lock, get_tail,
    lock_guard, scope_exit, bind, tail_lock, lock; simpl.
  destruct hm; simpl; [tauto|]. destruct tm; simpl; [tauto|].
  case_bool_decide; simpl; [tauto|].
  match goal with |- context [pop_head ?s] =>
    pose proof (silent_pop_head s) as Hs;
    destruct (pop_head s) as [t [r q'|[]|q'|]] end;
    simpl in *; subst; simpl; tauto.
Qed.

Ltac silence :=
  repeat first
    [ apply silent_ret | apply silent_gets | apply silent_modify
    | apply silent_fault
    | apply silent_load | apply silent_store | apply silent_destroy
    | apply silent_deref | apply silent_pop_head
    | apply silent_scope_exit
    | apply silent_bind; [|intros ?] ].

Ltac enter_head_scope :=
  unfold lock_guard, scope_exit, bind, head_lock, get_tail,
    lock_guard, scope_exit, bind, tail_lock, lock; simpl;
  match goal with |- context [if ?hm then _ else _] => destruct hm end;
  simpl; [tauto|];
  match goal with |- context [if ?tm then _ else _] => destruct tm end;
  simpl; [tauto|].

Ltac run_silent c :=
  match goal with |- context [c ?s] =>
    let Hs := fresh "Hs" in
    let t := fresh "t" in
    assert (silent c) as Hs by silence;
    specialize (Hs s);
    destruct (c s) as [t [? ?|[]|?|]];
    simpl in Hs; subst t; simpl; try tauto
  end.

Lemma try_pop_head_ref_trace q v :
  In (try_pop_head_ref v q).1
     [[]; [LockHead]; [LockHead; LockTail; UnlockTail];
      [LockHead; LockTail; UnlockTail; UnlockHead]].
Proof.
  destruct q as [h b hm tm hd tl]. unfold try_pop_head_ref.
  enter_head_scope. case_bool_decide; simpl; [tauto|].
  run_silent (load (T:=T) hd).
  match goal with |- context [deref ?sp] => run_silent (deref sp) end.
  run_silent (@pop_head T).
Qed.

Lemma empty_trace q :
  In (empty q).1
     [[]; [LockHead]; [LockHead; LockTail; UnlockTail; UnlockHead]].
Proof.
  destruct q as [h b hm tm hd tl]. unfold empty.
  enter_head_scope. tauto.
Qed.

Lemma wait_pop_head_trace q :
  In (wait_pop_head q).1
     [[]; [LockHead]; [LockHead; LockTail; UnlockTail];
      [LockHead; LockTail; UnlockTail; UnlockHead];
      [LockHead; LockTail; UnlockTail; UnlockHead; Wait]].
Proof.
  destruct q as [h b hm tm hd tl]. unfold wait_pop_head, wait_for_data, head_unlock, unlock.
  enter_head_scope. case_bool_decide; simpl; [|tauto].
  run_silent (@pop_head T).
Qed.

Lemma wait_pop_head_ref_trace q v :
  In (wait_pop_head_ref v q).1
     [[]; [LockHead]; [LockHead; LockTail; UnlockTail];
      [LockHead; LockTail; UnlockTail; UnlockHead];
      [LockHead; LockTail; UnlockTail; UnlockHead; Wait]].
Proof.
  destruct q as [h b hm tm hd tl].
  unfold wait_pop_head_ref, wait_for_data, head_unlock, unlock.
  enter_head_scope. case_bool_decide; simpl; [|tauto].
  run_silent (load (T:=T) hd).
  match goal with |- context [deref ?sp] => run_silent (deref sp) end.
  run_silent (@pop_head T).
Qed.

Lemma push_trace q v :
  In (push v q).1 [[]; [LockTail]; [LockTail; UnlockTail; NotifyOne]].
Proof.
  unfold push. unfold bind at 1 2. simpl. rewrite after_nil.
  match goal with |- context [lock_guard ?a ?r ?body ?s] =>
    assert (silent body) as Hb by silence;
    pose proof (lock_guard_shape tail_mutex set_tail_mutex LockTail UnlockTail
                  body s Hb) as Hsh;
    change (lock_guard a r body s) with
      (lock_guard (lock tail_mutex set_tail_mutex LockTail)
         (unlock set_tail_mutex UnlockTail) body s);
    destruct (lock_guard (lock tail_mutex set_tail_mutex LockTail)
         (unlock set_tail_mutex UnlockTail) body s) as [t [[] q'|[]|q'|]]
  end; simpl; first [subst t | destruct Hsh as [-> | ->]]; simpl; tauto.
Qed.

Lemma run_trace (o : op T) q :
  In (run o q).1
     match o with
     | Push _ => [[]; [LockTail]; [LockTail; UnlockTail; NotifyOne]]
     | _ => [[]; [LockHead]; [LockHead; LockTail; UnlockTail];
             [LockHead; LockTail; UnlockTail; UnlockHead];
             [LockHead; LockTail; UnlockTail; UnlockHead; Wait]]
     end.
Proof.
  destruct o as [v| |x| |x|]; simpl run.
  - rewrite bind_silent_trace by (intros; silence). apply push_trace.
  - unfold try_pop. rewrite bind_silent_trace.
    + pose proof (try_pop_head_trace q). simpl in *. tauto.
    + intros [a|]; silence.
  - unfold try_pop_ref. rewrite !bind_silent_trace by (intros; silence).
    pose proof (try_pop_head_ref_trace q x). simpl in *. tauto.
  - unfold wait_and_pop. rewrite bind_silent_trace by (intros; silence).
    apply wait_pop_head_trace.
  - unfold wait_and_pop_ref. rewrite !bind_silent_trace by (intros; silence).
    apply wait_pop_head_ref_trace.
  - rewrite bind_silent_trace by (intros; silence).
    pose proof (empty_trace q). simpl in *. tauto.
Qed.

Lemma try_pop_ref_false q x t y q' :
  try_pop_ref x q = (t, Ret (false, y) q') ->
  y = x /\ q' = q /\ head q = tail q.
Proof.
  destruct (decide (head q = tail q)) as [He|Hne].
  - destruct q as [h b hm tm hd tl]; simpl in He; subst.
    unfold try_pop_ref, try_pop_head_ref, lock_guard, scope_exit, bind,
      head_lock, get_tail, lock_guard, scope_exit, bind, tail_lock, lock;
      simpl.
    destruct hm; [discriminate|]; simpl. destruct tm; [discriminate|]; simpl.
    rewrite bool_decide_eq_true_2 by done; simpl.
    by intros [= <- <- <-].
  - unfold try_pop_ref, bind.
    destruct (try_pop_head_ref x q) as [t0 [[r z] q0|[]|q0|]] eqn:E;
      try discriminate.
    destruct (try_pop_head_ref_ret _ _ _ _ _ Hne E) as [a Ha].
    simpl in Ha; subst r. unfold scope_exit, bind; simpl.
    destruct (destroy (Some a) q0) as [t1 [[] q1|[]|q1|]]; simpl;
      discriminate.
Qed.

(** *** The claims *)

(** C3 (dummy-node invariant).  In every state a sequence of calls of
    the public operations leaves behind, starting from the constructor,
    the chain owned by [head] has at least one node: it has one node
    more than there are values pushed and not yet popped, and its last
    node is the one [tail] points at.  No value is pending exactly when
    [head] and [tail] are the same pointer, which is what [empty]
    answers. *)
Theorem dummy_node_invariant q l :
  reach q l ->
  nodes q <> []
  /\ length (nodes q) = S (length l)
  /\ last (nodes q) = tail q
  /\ (l = [] <-> head q = tail q)
  /\ (empty q).2 = Ret (bool_decide (head q = tail q)) q.
Proof.
  intros Hr%reach_repr.
  destruct (repr_nodes _ _ Hr) as (Hlen & _ & Hlast).
  destruct (repr_unlocked _ _ Hr) as [Hhm Htm].
  repeat split.
  - intros Hn. by rewrite Hn in Hlen.
  - done.
  - done.
  - by apply repr_empty_iff.
  - by intros ?%(repr_empty_iff _ _ Hr).
  - by rewrite empty_run.
Qed.

(** C5 (push).  On every state reachable from the constructor, holding
    the values [l], [push v] returns; it takes and releases
    [tail_mutex] only, and notifies [data_cond] after the release.  The
    node [tail] pointed at now carries [v] and links to a node that did
    not exist before, which is empty, has no successor and is the new
    [tail]; no other node and no other field changed.  Afterwards every
    node of the chain but the last carries a value, those values are
    [l] followed by [v], and the last node carries none. *)
Theorem push_appends_node q l v :
  reach q l ->
  exists t q',
    tail q = Some t
    /\ push v q = ([LockTail; UnlockTail; NotifyOne], Ret tt q')
    /\ heap q !! brk q = None
    /\ heap q' !! t = Some {| data := Some v; next := Some (brk q) |}
    /\ heap q' !! brk q = Some empty_node
    /\ tail q' = Some (brk q)
    /\ (forall i, i <> t -> i <> brk q -> heap q' !! i = heap q !! i)
    /\ head q' = head q
    /\ head_mutex q' = head_mutex q /\ tail_mutex q' = tail_mutex q
    /\ payloads q' = (Some <$> (l ++ [v])) ++ [None].
Proof.
  intros Hr%reach_repr.
  destruct (repr_unlocked _ _ Hr) as [Hhm Htm].
  destruct (repr_push _ _ v Hr) as (t & q' & Htl & Hrun & -> & Hfresh & Hr').
  assert (t <> brk q) as Hne.
  { intros ->. destruct Hr as (? & t' & _ & Htl' & _ & Ht' & _).
    congruence. }
  eexists t, _. split; [done|]. split; [exact Hrun|]. simpl.
  repeat split; try done.
  - by rewrite lookup_insert_eq.
  - by rewrite lookup_insert_ne, lookup_insert_eq.
  - intros i ??. by rewrite !lookup_insert_ne.
  - by apply repr_nodes in Hr' as (_ & ? & _).
Qed.

(** C6 (blocking and non-blocking pop agree).  Whenever [head] and
    [tail] differ, [wait_and_pop] does exactly what [try_pop] does:
    same events, same way of ending, same value, same state left
    behind; for the overloads writing through a reference, the storage
    ends with the same content and [try_pop] additionally answers true.
    On a reachable state that holds values both return the oldest
    one. *)
Theorem wait_and_pop_agrees_with_try_pop q x :
  head q <> tail q ->
  wait_and_pop q = try_pop q
  /\ map_ret (pair true) (wait_and_pop_ref x) q = try_pop_ref x q
  /\ (forall l, reach q l ->
        exists v l' q',
          l = v :: l'
          /\ wait_and_pop q
             = ([LockHead; LockTail; UnlockTail; UnlockHead], Ret (Some v) q')
          /\ wait_and_pop_ref x q
             = ([LockHead; LockTail; UnlockTail; UnlockHead], Ret v q')
          /\ reach q' l').
Proof.
  intros Hne. split; [by apply wait_and_pop_try|].
  split; [by rewrite wait_and_pop_ref_try|].
  intros l Hreach. pose proof (reach_repr _ _ Hreach) as Hr.
  destruct l as [|v l]; [destruct Hne; by apply (repr_empty_iff _ _ Hr)|].
  destruct (repr_wait_and_pop _ _ _ Hr) as (q1 & Hrun & _).
  destruct (repr_wait_and_pop_ref _ _ _ x Hr) as (q2 & Hrun' & _).
  assert (q2 = q1) as ->.
  { destruct (repr_front _ _ _ Hr) as (a & n & Hh & Hnt & Ha & Hhm & Htm).
    rewrite wait_and_pop_try, (try_pop_run q a _ Hh Hnt Ha Hhm Htm) in Hrun by done.
    pose proof (wait_and_pop_ref_try q x Hne) as Heq.
    rewrite (try_pop_ref_run q a _ v x Hh Hnt Ha eq_refl Hhm Htm) in Heq.
    symmetry in Heq. apply map_ret_inv in Heq as (y & Heq & _).
    congruence. }
  exists v, l, q1. repeat split; try done.
  exact (reach_ret WaitAndPop q (v :: l) _ (Some v) q1 Hreach Hrun).
Qed.

(** C7 (non-blocking empty outcome).  When [head] and [tail] are the
    same pointer and both mutexes are free, each [try_pop] overload
    returns, a null pointer for one and false for the other, after
    taking and releasing the two mutexes and nothing else, and leaves
    the queue as it found it.  From no state at all does a [try_pop]
    wait on the condition variable or throw. *)
Theorem try_pop_on_empty q x :
  head q = tail q -> head_mutex q = false -> tail_mutex q = false ->
  try_pop q = ([LockHead; LockTail; UnlockTail; UnlockHead], Ret None q)
  /\ try_pop_ref x q
     = ([LockHead; LockTail; UnlockTail; UnlockHead], Ret (false, x) q)
  /\ (forall q0, ~ In Wait (try_pop q0).1 /\ ~ In Wait (try_pop_ref x q0).1)
  /\ (forall q0 e q1, (try_pop q0).2 <> Throw e q1
                      /\ (try_pop_ref x q0).2 <> Throw e q1).
Proof.
  intros He Hhm Htm.
  split; [by apply try_pop_empty|]. split; [by apply try_pop_ref_empty|].
  split.
  - intros q0. pose proof (run_trace TryPop q0) as H1.
    pose proof (run_trace (TryPopRef x) q0) as H2. simpl run in *.
    rewrite bind_silent_trace in H2 by (intros; silence).
    unfold try_pop in *. rewrite bind_silent_trace in * by (intros [?|]; silence).
    pose proof (try_pop_head_trace q0) as H3.
    unfold try_pop_ref in *. rewrite bind_silent_trace in * by (intros; silence).
    pose proof (try_pop_head_ref_trace q0 x) as H4.
    split; intros Hw.
    + destruct H3 as [H|[H|[H|[H|[]]]]]; rewrite <- H in Hw; simpl in Hw;
        intuition discriminate.
    + destruct H4 as [H|[H|[H|[H|[]]]]]; rewrite <- H in Hw; simpl in Hw;
        intuition discriminate.
  - intros q0 [].
Qed.

(** C10 (frame of the failing [try_pop(value)]).  When [head] and
    [tail] are the same pointer and both mutexes are free,
    [try_pop(value)] answers false and the referenced storage holds
    what it held before; the queue is unchanged.  More generally, from
    any state, an answer of false comes with unchanged storage and an
    unchanged queue, and is only given when [head] and [tail] are the
    same pointer. *)
Theorem try_pop_ref_empty_frame q x :
  head q = tail q -> head_mutex q = false -> tail_mutex q = false ->
  (try_pop_ref x q).2 = Ret (false, x) q
  /\ (forall q0 t y q1,
        try_pop_ref x q0 = (t, Ret (false, y) q1) ->
        y = x /\ q1 = q0 /\ head q0 = tail q0).
Proof.
  intros He Hhm Htm. split; [by rewrite try_pop_ref_empty|].
  intros q0 t y q1. apply try_pop_ref_false.
Qed.

(** C9 (lock order).  Whatever the state, the events of a call of any
    public operation never show [head_mutex] being acquired while
    [tail_mutex] is held; [push] does not touch [head_mutex] at all; and
    in [try_pop], [wait_and_pop] and [empty] every acquisition of
    [tail_mutex] happens while [head_mutex] is held.  On a reachable
    state the events are exactly: tail-lock, tail-unlock, notify for
    [push]; head-lock, tail-lock, tail-unlock, head-unlock for the
    others, followed by the wait when a [wait_and_pop] finds no
    value. *)
Theorem lock_order (o : op T) q :
  no_head_inside_tail false (run o q).1 = true
  /\ match o with
     | Push _ => tail_only (run o q).1 = true
     | _ => tail_inside_head false (run o q).1 = true
     end
  /\ (forall l, reach q l ->
        (run o q).1
        = match o, l with
          | Push _, _ => [LockTail; UnlockTail; NotifyOne]
          | (WaitAndPop | WaitAndPopRef _), [] =>
              [LockHead; LockTail; UnlockTail; UnlockHead; Wait]
          | _, _ => [LockHead; LockTail; UnlockTail; UnlockHead]
          end).
Proof.
  pose proof (run_trace o q) as Htr. repeat split.
  - revert Htr. generalize (run o q).1 as tr. intros tr Htr.
    destruct o; simpl in Htr;
      repeat (destruct Htr as [<-|Htr]; [reflexivity|]); destruct Htr.
  - revert Htr. generalize (run o q).1 as tr. intros tr Htr.
    destruct o; simpl in Htr;
      repeat (destruct Htr as [<-|Htr]; [reflexivity|]); destruct Htr.
  - intros l Hr%reach_repr.
    destruct (run_repr o _ _ Hr) as (t & r & Hrun & -> & _).
    by rewrite Hrun.
Qed.
End QueueFacts.

(** C1 (queue FIFO scenario).  On a freshly constructed queue of [int],
    [push(1); push(2); push(3)] followed by four [try_pop()] calls all
    return; the first three hand out 1, 2 and 3 in that order and the
    fourth hands out a null pointer.  The queue is left with its single
    empty node and both mutexes free. *)
Theorem queue_fifo_scenario :
  (sequential_operations ctor).2
  = Ret [Some 1%Z; Some 2%Z; Some 3%Z; None]
      {| heap := {[ 3 := empty_node ]}; brk := 4;
         head_mutex := false; tail_mutex := false;
         head := Some 3; tail := Some 3 |}.
Proof. vm_compute. reflexivity. Qed.

Lemma reach_a_queue : reach a_queue [1%Z; 2%Z].
Proof.
  eapply (reach_ret (Push 2%Z) _ [1%Z] _ None).
  - eapply (reach_ret (Push 1%Z) _ [] _ None); [apply reach_ctor|].
    vm_compute. reflexivity.
  - vm_compute. reflexivity.
Defined.

Lemma dummy_node_invariant_witness :
  reach a_queue [1%Z; 2%Z]
  /\ length (nodes a_queue) = 3
  /\ last (nodes a_queue) = tail a_queue
  /\ head a_queue <> tail a_queue.
Proof.
  split; [exact reach_a_queue|].
  destruct (dummy_node_invariant a_queue [1%Z; 2%Z] reach_a_queue)
    as (_ & H1 & H2 & H3 & _).
  split; [exact H1|]. split; [exact H2|].
  intros He. apply H3 in He. discriminate He.
Defined.

Lemma push_appends_node_witness :
  reach a_queue [1%Z; 2%Z]
  /\ exists q',
       push 3%Z a_queue = ([LockTail; UnlockTail; NotifyOne], Ret tt q')
       /\ payloads q' = [Some 1%Z; Some 2%Z; Some 3%Z; None].
Proof.
  split; [exact reach_a_queue|].
  destruct (push_appends_node a_queue [1%Z; 2%Z] 3%Z reach_a_queue)
    as (t & q' & _ & H1 & _ & _ & _ & _ & _ & _ & _ & _ & H2).
  exists q'. exact (conj H1 H2).
Defined.

Lemma wait_and_pop_agrees_with_try_pop_witness :
  head a_queue <> tail a_queue
  /\ wait_and_pop a_queue = try_pop a_queue
  /\ map_ret (pair true) (wait_and_pop_ref 7%Z) a_queue = try_pop_ref 7%Z a_queue.
Proof.
  assert (head a_queue <> tail a_queue) as Hne by (vm_compute; discriminate).
  split; [exact Hne|].
  destruct (wait_and_pop_agrees_with_try_pop a_queue 7%Z Hne) as (H1 & H2 & _).
  exact (conj H1 H2).
Defined.

Lemma try_pop_on_empty_witness :
  head (@ctor Z) = tail (@ctor Z)
  /\ head_mutex (@ctor Z) = false /\ tail_mutex (@ctor Z) = false
  /\ try_pop (@ctor Z)
     = ([LockHead; LockTail; UnlockTail; UnlockHead], Ret None ctor)
  /\ try_pop_ref 7%Z ctor
     = ([LockHead; LockTail; UnlockTail; UnlockHead], Ret (false, 7%Z) ctor).
Proof.
  do 3 (split; [reflexivity|]).
  destruct (try_pop_on_empty (@ctor Z) 7%Z eq_refl eq_refl eq_refl)
    as (H1 & H2 & _).
  exact (conj H1 H2).
Defined.

Lemma try_pop_ref_empty_frame_witness :
  head (@ctor Z) = tail (@ctor Z)
  /\ head_mutex (@ctor Z) = false /\ tail_mutex (@ctor Z) = false
  /\ (try_pop_ref 7%Z ctor).2 = Ret (false, 7%Z) ctor.
Proof.
  do 3 (split; [reflexivity|]).
  exact (proj1 (try_pop_ref_empty_frame (@ctor Z) 7%Z eq_refl eq_refl eq_refl)).
Defined.

Lemma lock_order_witness :
  reach a_queue [1%Z; 2%Z]
  /\ tail_inside_head false (run TryPop a_queue).1 = true
  /\ (run TryPop a_queue).1 = [LockHead; LockTail; UnlockTail; UnlockHead].
Proof.
  split; [exact reach_a_queue|].
  destruct (lock_order TryPop a_queue) as (_ & H1 & H2).
  exact (conj H1 (H2 _ reach_a_queue)).
Defined.

End QueueFacts.

(** ** Facts about the callers of the stack *)

Module StackClientFacts.
Import Stack Control StackClient ExecFacts.

Lemma run_all_cons {St Exn Ev C A} (run : C -> M St Exn Ev A) (c0 : C) cs s a s1 :
  (run c0 s).2 = Ret a s1 ->
  (run_all run (c0 :: cs) s).2
  = match (run_all run cs s1).2 with
    | Ret r s2 => Ret (a :: r) s2
    | Throw e s2 => Throw e s2
    | Block s2 => Block s2
    | Fault => Fault
    end.
Proof.
  intros H. cbn [run_all]. erewrite bind_end by exact H.
  unfold bind. destruct (run_all run cs s1) as [t [r s2|e s2|s2|]]; reflexivity.
Qed.

Lemma run_all_throw {St Exn Ev C A} (run : C -> M St Exn Ev A) (c0 : C) cs s e s1 :
  (run c0 s).2 = Throw e s1 ->
  (run_all run (c0 :: cs) s).2 = Throw e s1.
Proof.
  cbn [run_all]. unfold bind.
  destruct (run c0 s) as [t [a s2|e' s2|s2|]]; simpl; try discriminate.
  by intros [= -> ->].
Qed.

Section CallFacts.
Context {T : Type}.
Implicit Types (s : threadsafe_stack T) (d : list T) (c : call T).

(** X1 (the stack refines a list).  Whatever member functions a single
    caller invokes, in whatever order, on a stack holding [d] with its
    mutex free, the answers are those of the plain list [lifo]: a push
    puts its value on top, a pop through either overload delivers the
    top, [empty] tells whether there is none.  The first pop that finds
    no element throws [empty_stack], which ends the run with the stack as
    it was at that moment. *)
Theorem stack_refines_lifo (cs : list (call T)) d :
  (run_all run cs {| data := d; m := false |}).2
  = match lifo cs d with
    | inl (r, d') => Ret r {| data := d'; m := false |}
    | inr d' => Throw empty_stack {| data := d'; m := false |}
    end.
Proof.
  revert d. induction cs as [|c cs IH]; intros d; [reflexivity|].
  destruct c as [v| |x|], d as [|top rest]; cbn [lifo];
    try (erewrite run_all_cons by (cbv; reflexivity); rewrite IH;
         by destruct (lifo cs _) as [[??]|?]);
    by erewrite run_all_throw by (cbv; reflexivity).
Qed.

(** X2 (the two pops agree).  On every stack, [pop(value)] does what
    [pop()] does: the same events, the same way of ending (return, throw
    or suspension) and the same stack left behind; the value it stores is
    the one [pop()] returns a pointer to, which is never null. *)
Theorem stack_pop_overloads_agree s (x : T) :
  map_ret Some (pop_ref x) s = pop s.
Proof. destruct s as [[|top rest] [|]]; reflexivity. Qed.

(** X3 (the mutex is always given back).  A member function called
    while the mutex is held suspends its caller before touching anything.
    Called with the mutex free it takes the mutex once and releases it
    once, whether it returns or throws, and leaves the mutex free. *)
Theorem stack_mutex_released c s :
  if m s then run c s = ([], Block s)
  else (run c s).1 = [Lock; Unlock]
       /\ exists s', state_of (run c s).2 = Some s' /\ m s' = false
                     /\ (run c s).2 <> Block s'.
Proof.
  destruct s as [d [|]]; simpl.
  - by destruct c.
  - destruct c as [v| |x|], d as [|top rest]; simpl;
      (split; [reflexivity|]); eexists; (split; [reflexivity|]); done.
Qed.
End CallFacts.

(** *** The worker functions *)

Lemma concurrent_push_run start len d r b :
  (for_each (fun i => on_stack (push i)) (seqZ start (Z.of_nat len))
     {| stack := {| data := d; m := false |}; results := r; results_mutex := b |}).2
  = Ret tt {| stack := {| data := rev (seqZ start (Z.of_nat len)) ++ d; m := false |};
              results := r; results_mutex := b |}.
Proof.
  revert start d. induction len as [|len IH]; intros start d; [reflexivity|].
  rewrite seqZ_cons by lia. cbn [for_each].
  erewrite bind_end by (cbv; reflexivity).
  replace (Z.pred (Z.of_nat (S len))) with (Z.of_nat len) by lia.
  rewrite IH. cbn [rev]. by rewrite <- app_assoc.
Qed.

(** X4 ([concurrent_push]).  Run alone on a stack whose mutex is free,
    [concurrent_push(stack, start, end)] returns with start, start+1, ...,
    end-1 pushed in that order, so end-1 is on top; when [end <= start]
    it pushes nothing.  The results vector is not touched. *)
Theorem concurrent_push_pushes_range start end_ d r b :
  (concurrent_push start end_
     {| stack := {| data := d; m := false |}; results := r; results_mutex := b |}).2
  = Ret tt {| stack := {| data := rev (seqZ start (end_ - start)) ++ d; m := false |};
              results := r; results_mutex := b |}.
Proof.
  unfold concurrent_push, for_range.
  destruct (decide (end_ - start <= 0)%Z) as [Hle|Hgt].
  - by rewrite seqZ_nil.
  - rewrite <- (Z2Nat.id (end_ - start)) by lia. apply concurrent_push_run.
Qed.

Lemma concurrent_pop_run (l : list Z) d r :
  (for_each (fun _ : Z =>
      try_catch
        (value <- on_stack pop ;;
         lock_guard results_lock results_unlock
           (v <- get value ;; push_back v))
        (fun _ => ret tt)) l
     {| stack := {| data := d; m := false |}; results := r;
        results_mutex := false |}).2
  = Ret tt {| stack := {| data := drop (length l) d; m := false |};
              results := r ++ take (length l) d; results_mutex := false |}.
Proof.
  revert d r. induction l as [|i l IH]; intros d r.
  - simpl. by rewrite drop_0, take_0, app_nil_r.
  - cbn [for_each length]. destruct d as [|top rest].
    + erewrite bind_end by (cbv; reflexivity). rewrite IH.
      by rewrite drop_nil, !take_nil.
    + erewrite bind_end by (cbv; reflexivity). rewrite IH.
      cbn [drop take]. by rewrite <- app_assoc.
Qed.

(** X5 ([concurrent_pop]).  Run alone with both mutexes free,
    [concurrent_pop(stack, results, count, results_mutex)] always
    returns: the [empty_stack] thrown by a pop that finds nothing is
    caught and dropped.  It moves the top [count] elements of the stack,
    or all of them when there are fewer, to the end of [results], top
    first; a [count] of zero or less moves nothing. *)
Theorem concurrent_pop_moves_top count d r :
  (concurrent_pop count
     {| stack := {| data := d; m := false |}; results := r;
        results_mutex := false |}).2
  = Ret tt {| stack := {| data := drop (Z.to_nat count) d; m := false |};
              results := r ++ take (Z.to_nat count) d;
              results_mutex := false |}.
Proof.
  unfold concurrent_pop, for_range.
  rewrite concurrent_pop_run, length_seqZ. by rewrite Z.sub_0_r.
Qed.

(** X6 (pushing a range, then popping as many).  One thread running
    [concurrent_push(stack, start, end)] and then [concurrent_pop] with
    [count = end - start], on an empty stack and an empty vector, ends
    with the stack empty again and [results] holding end-1, ..., start
    in that order. *)
Theorem push_range_then_pop start end_ :
  ((concurrent_push start end_ ;; concurrent_pop (end_ - start))
     {| stack := ctor; results := []; results_mutex := false |}).2
  = Ret tt {| stack := ctor; results := rev (seqZ start (end_ - start));
              results_mutex := false |}.
Proof.
  erewrite bind_end by apply concurrent_push_pushes_range.
  rewrite concurrent_pop_moves_top. rewrite app_nil_r.
  assert (Z.to_nat (end_ - start) = length (rev (seqZ start (end_ - start)))) as ->
    by by rewrite length_rev, length_seqZ.
  by rewrite drop_all, firstn_all.
Qed.

End StackClientFacts.

(** ** Facts about the callers of the queue *)

Module QueueClientFacts.
Import Queue Control QueueClient ExecFacts QueueFacts.

Lemma run_all_ret {St Exn Ev C A} (run : C -> M St Exn Ev A) (c0 : C) cs s a s1 r s2 :
  (run c0 s).2 = Ret a s1 -> (run_all run cs s1).2 = Ret r s2 ->
  (run_all run (c0 :: cs) s).2 = Ret (a :: r) s2.
Proof.
  intros H1 H2. cbn [run_all]. erewrite bind_end by exact H1.
  by erewrite bind_end by exact H2.
Qed.

Lemma run_all_block {St Exn Ev C A} (run : C -> M St Exn Ev A) (c0 : C) cs s a s1 s2 :
  (run c0 s).2 = Ret a s1 -> (run_all run cs s1).2 = Block s2 ->
  (run_all run (c0 :: cs) s).2 = Block s2.
Proof.
  intros H1 H2. cbn [run_all]. erewrite bind_end by exact H1.
  unfold bind. destruct (run_all run cs s1) as [t [| | |]]; simpl in *;
    by try discriminate.
Qed.

Lemma run_all_block_now {St Exn Ev C A} (run : C -> M St Exn Ev A) (c0 : C) cs s s1 :
  (run c0 s).2 = Block s1 ->
  (run_all run (c0 :: cs) s).2 = Block s1.
Proof.
  cbn [run_all]. unfold bind.
  destruct (run c0 s) as [t [a s2|e s2|s2|]]; simpl; intros Hend.
  - discriminate Hend.
  - discriminate Hend.
  - by injection Hend as ->.
  - discriminate Hend.
Qed.

Section HistoryFacts.
Context {T : Type}.
Implicit Types (q : threadsafe_queue T) (l : list T) (o : op T).

(** One call on a represented queue, by operation and content. *)
Lemma run_step o q l :
  repr q l ->
  match o, l with
  | (WaitAndPop | WaitAndPopRef _), [] => (run o q).2 = Block q
  | Push v, _ => exists q', (run o q).2 = Ret None q' /\ repr q' (l ++ [v])
  | Empty, _ => (run o q).2 = Ret None q
  | _, [] => (run o q).2 = Ret None q
  | _, v :: l' => exists q', (run o q).2 = Ret (Some v) q' /\ repr q' l'
  end.
Proof.
  intros Hr. pose proof (repr_unlocked _ _ Hr) as [Hhm Htm].
  pose proof (repr_empty_iff _ _ Hr) as Hemp.
  destruct o as [v| |x| |x|]; simpl run.
  - destruct (repr_push _ _ v Hr) as (t & q' & _ & Hrun & _ & _ & Hr').
    exists q'. split; [|done]. by erewrite bind_end by by rewrite Hrun.
  - destruct l as [|v l].
    + by rewrite try_pop_empty by (done || by apply Hemp).
    + destruct (repr_try_pop _ _ _ Hr) as (q' & Hrun & Hr').
      exists q'. by rewrite Hrun.
  - destruct l as [|v l].
    + by erewrite bind_end
        by by rewrite try_pop_ref_empty by (done || by apply Hemp).
    + destruct (repr_try_pop_ref _ _ _ x Hr) as (q' & Hrun & Hr').
      exists q'. split; [|done]. by erewrite bind_end by by rewrite Hrun.
  - destruct l as [|v l].
    + by rewrite wait_and_pop_empty by (done || by apply Hemp).
    + destruct (repr_wait_and_pop _ _ _ Hr) as (q' & Hrun & Hr').
      exists q'. by rewrite Hrun.
  - destruct l as [|v l].
    + unfold bind. by rewrite wait_and_pop_ref_empty by (done || by apply Hemp).
    + destruct (repr_wait_and_pop_ref _ _ _ x Hr) as (q' & Hrun & Hr').
      exists q'. split; [|done]. by erewrite bind_end by by rewrite Hrun.
  - assert ((bind empty (fun _ => ret None) q).2 = Ret (None : option T) q) as H
      by by erewrite bind_end by by rewrite empty_run.
    by destruct l.
Qed.

Lemma run_all_repr (os : list (op T)) q l :
  repr q l ->
  match fifo os l with
  | Some (r, l') => exists q', (run_all run os q).2 = Ret r q' /\ repr q' l'
  | None => exists q', (run_all run os q).2 = Block q'
  end.
Proof.
  revert q l. induction os as [|o os IH]; intros q l Hr; [by exists q|].
  pose proof (run_step o _ _ Hr) as Hstep.
  assert (forall out q1 l1,
    (run o q).2 = Ret out q1 -> repr q1 l1 ->
    match (match fifo os l1 with
           | Some (r, l'') => Some (out :: r, l'')
           | None => None
           end) with
    | Some (r, l') => exists q', (run_all run (o :: os) q).2 = Ret r q' /\ repr q' l'
    | None => exists q', (run_all run (o :: os) q).2 = Block q'
    end) as Hnext.
  { intros out q1 l1 Hrun Hr1. specialize (IH q1 l1 Hr1).
    destruct (fifo os l1) as [[r l'']|].
    - destruct IH as (q' & Hall & Hr'). exists q'. split; [|done].
      by eapply run_all_ret.
    - destruct IH as (q' & Hall). exists q'. by eapply run_all_block. }
  destruct o as [v| |x| |x|], l as [|v0 l0]; cbn [fifo];
    first
      [ exact (Hnext _ _ _ Hstep Hr)
      | destruct Hstep as (q1 & Hrun & Hr1); exact (Hnext _ _ _ Hrun Hr1)
      | exists q; by apply run_all_block_now ].
Qed.

(** X7 (the queue refines a list).  Whatever public operations a single
    caller invokes on a freshly constructed queue, in whatever order, the
    values handed out are those of the plain list [fifo]: a pop through
    any of the four overloads delivers the oldest value not yet popped,
    and a [try_pop] that finds none hands out nothing.  No call
    dereferences a null or dangling node pointer; the run ends early only
    when a [wait_and_pop] finds the queue empty, which suspends the
    caller. *)
Theorem queue_refines_fifo (os : list (op T)) :
  match fifo os [] with
  | Some (r, _) => exists q', (run_all run os ctor).2 = Ret r q'
  | None => exists q', (run_all run os ctor).2 = Block q'
  end.
Proof.
  pose proof (run_all_repr os _ _ repr_ctor) as H.
  destruct (fifo os []) as [[r l']|]; [|done].
  destruct H as (q' & H & _). eauto.
Qed.
End HistoryFacts.

(** *** The sequential test *)

Lemma zoom_end {St St' Exn Ev Ev' A} (get : St -> St') (set : St' -> St -> St)
    (tag : Ev' -> Ev) (c : M St' Exn Ev' A) s a s' :
  (c (get s)).2 = Ret a s' ->
  (zoom get set tag c s).2 = Ret a (set s' s).
Proof. unfold zoom. destruct (c (get s)) as [t r]; simpl. by intros ->. Qed.

Lemma reach_push (q : threadsafe_queue Z) l v :
  reach q l -> exists q', (push v q).2 = Ret tt q' /\ reach q' (l ++ [v]).
Proof.
  intros Hreach. pose proof (reach_repr _ _ Hreach) as Hr.
  destruct (repr_push _ _ v Hr) as (t & q' & _ & Hrun & _ & _ & _).
  exists q'. split; [by rewrite Hrun|].
  eapply (reach_ret (Push v) q l _ None q' Hreach).
  simpl. by erewrite bind_run by exact Hrun.
Qed.

Lemma reach_try_pop_ref (q : threadsafe_queue Z) v l x :
  reach q (v :: l) ->
  exists q', (try_pop_ref x q).2 = Ret (true, v) q' /\ reach q' l.
Proof.
  intros Hreach. pose proof (reach_repr _ _ Hreach) as Hr.
  destruct (repr_try_pop_ref _ _ _ x Hr) as (q' & Hrun & _).
  exists q'. split; [by rewrite Hrun|].
  eapply (reach_ret (TryPopRef x) q (v :: l) _ (Some v) q' Hreach).
  simpl. by erewrite bind_run by exact Hrun.
Qed.

Lemma fill_run k a (q : threadsafe_queue Z) r l :
  reach q l ->
  exists q',
    (for_each (fun i => on_queue (push i)) (seqZ a (Z.of_nat k))
       {| queue := q; results := r |}).2
    = Ret tt {| queue := q'; results := r |}
    /\ reach q' (l ++ seqZ a (Z.of_nat k)).
Proof.
  revert a q l. induction k as [|k IH]; intros a q l Hreach.
  - exists q. by rewrite app_nil_r.
  - rewrite seqZ_cons by lia. cbn [for_each].
    replace (Z.pred (Z.of_nat (S k))) with (Z.of_nat k) by lia.
    destruct (reach_push q l a Hreach) as (q1 & Hrun & Hreach1).
    destruct (IH (Z.succ a) q1 _ Hreach1) as (q' & Hall & Hreach').
    exists q'. split.
    + erewrite bind_end by (apply zoom_end; exact Hrun). exact Hall.
    + by rewrite <- app_assoc in Hreach'.
Qed.

Lemma drain_run l (q : threadsafe_queue Z) r fuel item :
  reach q l -> length l < fuel ->
  exists q',
    (drain fuel item {| queue := q; results := r |}).2
    = Ret true {| queue := q'; results := r ++ l |}
    /\ reach q' [].
Proof.
  revert q r fuel. induction l as [|v l IH]; intros q r fuel Hreach Hfuel;
    (destruct fuel as [|fuel]; [simpl in Hfuel; lia|]);
    pose proof (reach_repr _ _ Hreach) as Hr;
    pose proof (repr_unlocked _ _ Hr) as [Hhm Htm];
    pose proof (repr_empty_iff _ _ Hr) as Hemp; cbn [drain].
  - erewrite bind_end by (apply zoom_end; simpl; by rewrite empty_run).
    rewrite bool_decide_eq_true_2 by by apply Hemp.
    exists q. by rewrite app_nil_r.
  - erewrite bind_end by (apply zoom_end; simpl; by rewrite empty_run).
    rewrite bool_decide_eq_false_2 by (by intros ?%Hemp). cbn [negb].
    destruct (reach_try_pop_ref q v l (item fuel) Hreach) as (q1 & Hrun & Hreach1).
    erewrite bind_end by (apply zoom_end; exact Hrun). cbn [fst snd].
    erewrite bind_end by reflexivity.
    destruct (IH q1 (r ++ [v]) fuel Hreach1 ltac:(simpl in Hfuel; lia))
      as (q' & Hall & Hreach').
    exists q'. split; [|done].
    change (set_results _ _) with {| queue := q1; results := r ++ [v] |}.
    rewrite Hall. by rewrite <- app_assoc.
Qed.

(** X8 (the drain loop).  On a queue that sequential use has left
    holding the values [l], the loop [while (!queue.empty()) { int item;
    if (queue.try_pop(item)) results.push_back(item); }] is left after
    one iteration per value: every [try_pop] in it answers true, the
    values are appended to [results] oldest first, and the queue is
    empty afterwards.  What the uninitialised [item] holds does not
    matter. *)
Theorem drain_appends_in_order l (q : threadsafe_queue Z) r fuel item :
  reach q l -> length l < fuel ->
  exists q',
    (drain fuel item {| queue := q; results := r |}).2
    = Ret true {| queue := q'; results := r ++ l |}
    /\ reach q' [].
Proof. apply drain_run. Qed.

(** X9 (filling, then draining).  Pushing 0, 1, ..., n-1 on a freshly
    constructed queue and then running the drain loop leaves [results]
    equal to 0, 1, ..., n-1 in that order, for every [n] (nothing for
    [n <= 0]); [test_sequential_operations] is the case [n = 10]. *)
Theorem fill_then_drain n fuel item :
  Z.to_nat n < fuel ->
  exists q',
    ((fill n ;; drain fuel item) {| queue := ctor; results := [] |}).2
    = Ret true {| queue := q'; results := seqZ 0 n |}
    /\ reach q' []
    /\ (n = 10%Z ->
        (test_sequential_operations fuel item).2
        = Ret (true, seqZ 0 10) {| queue := q'; results := seqZ 0 10 |}).
Proof.
  intros Hfuel. unfold fill, for_range. rewrite Z.sub_0_r.
  assert (exists q1,
    (for_each (fun i => on_queue (push i)) (seqZ 0 n)
       {| queue := ctor; results := [] |}).2
    = Ret tt {| queue := q1; results := [] |} /\ reach q1 (seqZ 0 n))
    as (q1 & Hfill & Hreach1).
  { destruct (decide (n <= 0)%Z).
    - rewrite seqZ_nil by done. exists ctor. split; [done|apply reach_ctor].
    - rewrite <- (Z2Nat.id n) by lia.
      destruct (fill_run (Z.to_nat n) 0 ctor [] [] reach_ctor) as (q1 & H1 & H2).
      eauto. }
  destruct (drain_run (seqZ 0 n) q1 [] fuel item Hreach1) as (q' & Hdrain & Hreach').
  { by rewrite length_seqZ. }
  exists q'. split; [|split; [done|]].
  - erewrite bind_end by exact Hfill. exact Hdrain.
  - intros ->. unfold test_sequential_operations, fill, for_range.
    rewrite Z.sub_0_r. erewrite bind_end by exact Hfill.
    erewrite bind_end by exact Hdrain. reflexivity.
Qed.

Lemma fill_then_drain_witness :
  Z.to_nat 10 < 11
  /\ exists w,
       (test_sequential_operations 11 (fun _ => 0%Z)).2
       = Ret (true, [0; 1; 2; 3; 4; 5; 6; 7; 8; 9]%Z) w.
Proof.
  assert (Z.to_nat 10 < 11) as Hfuel by (vm_compute; lia).
  split; [exact Hfuel|].
  destruct (fill_then_drain 10 11 (fun _ => 0%Z) Hfuel) as (q' & _ & _ & H).
  eexists. exact (H eq_refl).
Defined.

Lemma drain_appends_in_order_witness :
  reach a_queue [1; 2]%Z /\ length [1; 2]%Z < 3
  /\ exists q',
       (drain 3 (fun _ => 0%Z) {| queue := a_queue; results := [] |}).2
       = Ret true {| queue := q'; results := [1; 2]%Z |}.
Proof.
  assert (length [1; 2]%Z < 3) as Hfuel by (simpl; lia).
  split; [exact reach_a_queue|]. split; [exact Hfuel|].
  destruct (drain_appends_in_order [1; 2]%Z a_queue [] 3 (fun _ => 0%Z)
              reach_a_queue Hfuel) as (q' & H & _).
  exists q'. exact H.
Defined.

End QueueClientFacts.

(** ** More facts about the queue *)

Module QueueMore.
Import Queue ExecFacts QueueFacts.

Section QueueMore.
Context {T : Type}.
Implicit Types (q : threadsafe_queue T) (l : list T) (v : T)
  (h : gmap addr (node T)).




(** X11 (a producer does not depend on the head side).  On a queue that
    sequential use has left behind, [push] returns and has the same
    effect whether or not [head_mutex] is held and whatever [head]
    currently is (for instance null, in the middle of a consumer's
    [pop_head]): it neither reads nor writes either of them. *)
Theorem push_ignores_head_side q l v (hm : bool) (hd : option addr) :
  reach q l ->
  exists q',
    push v q = ([LockTail; UnlockTail; NotifyOne], Ret tt q')
    /\ push v (set_head hd (set_head_mutex hm q))
       = ([LockTail; UnlockTail; NotifyOne],
          Ret tt (set_head hd (set_head_mutex hm q'))).
Proof.
  intros Hr%reach_repr.
  destruct (repr_push _ _ v Hr) as (t & q' & Htl & Hrun & -> & Hfresh & _).
  destruct (repr_unlocked _ _ Hr) as [_ Htm].
  destruct Hr as (a0 & t' & _ & Htl' & _ & Ht & Hb & _).
  assert (t' = t) as -> by congruence.
  assert (t <> brk q) as Hne by (specialize (Hb t ltac:(eauto)); lia).
  eexists. split; [exact Hrun|].
  by erewrite push_run by (simpl; eauto).
Qed.

(** X12 (reference and pointer overloads agree).  On a queue that
    sequential use has left behind, [try_pop(value)] hands out the same
    value and leaves the same queue as [try_pop()], with the same events,
    and so does [wait_and_pop(value)] compared with [wait_and_pop()];
    what the referenced storage held before the call does not matter. *)
Theorem queue_overloads_agree q l (x : T) :
  reach q l ->
  run (TryPopRef x) q = run TryPop q
  /\ run (WaitAndPopRef x) q = run WaitAndPop q.
Proof.
  intros Hr%reach_repr.
  pose proof (repr_unlocked _ _ Hr) as [Hhm Htm].
  pose proof (repr_empty_iff _ _ Hr) as Hemp.
  destruct l as [|v l]; simpl run.
  - assert (head q = tail q) as He by by apply Hemp.
    rewrite try_pop_empty, wait_and_pop_empty by done.
    unfold bind. by rewrite try_pop_ref_empty, wait_and_pop_ref_empty by done.
  - destruct (repr_front _ _ _ Hr) as (a & n & Hh & Hnt & Ha & _ & _).
    assert (head q <> tail q) as Hne by (by intros ?%Hemp).
    pose proof (try_pop_ref_run q a _ v x Hh Hnt Ha eq_refl Hhm Htm) as Href.
    pose proof (wait_and_pop_ref_try q x Hne) as Hw.
    rewrite Href in Hw. symmetry in Hw.
    apply map_ret_inv in Hw as (y & Hw & [= <-]).
    rewrite wait_and_pop_try by done.
    rewrite (try_pop_run q a _ Hh Hnt Ha Hhm Htm).
    unfold bind. by rewrite Href, Hw.
Qed.
End QueueMore.


Lemma push_ignores_head_side_witness :
  reach a_queue [1; 2]%Z
  /\ exists q',
       push 3%Z (set_head None (set_head_mutex true a_queue))
       = ([LockTail; UnlockTail; NotifyOne],
          Ret tt (set_head None (set_head_mutex true q'))).
Proof.
  split; [exact reach_a_queue|].
  destruct (push_ignores_head_side a_queue [1; 2]%Z 3%Z true None reach_a_queue)
    as (q' & _ & H).
  exists q'. exact H.
Defined.

Lemma queue_overloads_agree_witness :
  reach a_queue [1; 2]%Z
  /\ run (TryPopRef 7%Z) a_queue = run TryPop a_queue
  /\ run (WaitAndPopRef 7%Z) a_queue = run WaitAndPop a_queue.
Proof.
  split; [exact reach_a_queue|].
  exact (queue_overloads_agree a_queue [1; 2]%Z 7%Z reach_a_queue).
Defined.

End QueueMore.

(** ** Facts about the concurrent test of the stack *)

Module StackThreadsFacts.
Import Stack Control StackClient Threads StackThreads ExecFacts.

(** *** Bookkeeping over the list of threads *)

Lemma join_insert_perm {A B} (f : A -> list B) (ps : list A) i x y :
  ps !! i = Some x ->
  mjoin (f <$> <[i := y]> ps) ++ f x ≡ₚ mjoin (f <$> ps) ++ f y.
Proof.
  intros Hi. pose proof (lookup_lt_Some _ _ _ Hi) as Hlt.
  rewrite insert_take_drop by done.
  rewrite <- (take_drop_middle ps i x Hi) at 3.
  rewrite !fmap_app, !fmap_cons, !join_app. simpl.
  rewrite <- !app_assoc.
  apply Permutation_app_head.
  rewrite !app_assoc. rewrite (Permutation_app_comm (f y ++ _) (f x)).
  rewrite (Permutation_app_comm (f x ++ _) (f y)).
  rewrite !app_assoc. apply Permutation_app_tail, Permutation_app_comm.
Qed.

Lemma sum_insert {A} (g : A -> nat) (ps : list A) i x y :
  ps !! i = Some x ->
  sum_list_with g (<[i := y]> ps) + g x = sum_list_with g ps + g y.
Proof.
  intros Hi. pose proof (lookup_lt_Some _ _ _ Hi) as Hlt.
  rewrite insert_take_drop by done.
  rewrite <- (take_drop_middle ps i x Hi) at 3.
  rewrite !sum_list_with_app. simpl. lia.
Qed.

(** *** The pushing threads *)

Lemma pusher_done (rs : list (list Z)) :
  joined (pusher <$> rs) = true -> mjoin rs = [].
Proof.
  induction rs as [|vs rs IH]; [done|]. simpl.
  destruct vs; simpl; [|discriminate]. exact IH.
Qed.

Lemma exec_pushers sched d r b (rs : list (list Z)) :
  exists d' rs',
    exec sched {| stack := {| data := d; m := false |}; results := r;
                  results_mutex := b |} (pusher <$> rs)
    = Some ({| stack := {| data := d'; m := false |}; results := r;
               results_mutex := b |}, pusher <$> rs')
    /\ d' ++ mjoin rs' ≡ₚ d ++ mjoin rs.
Proof.
  revert d rs. induction sched as [|i sched IH]; intros d rs; [by exists d, rs|].
  cbn [exec]. rewrite list_lookup_fmap.
  destruct (rs !! i) as [vs|] eqn:Hi; simpl; [|apply IH].
  destruct vs as [|v vs]; simpl.
  - rewrite list_insert_id by by rewrite list_lookup_fmap, Hi. apply IH.
  - rewrite <- (list_fmap_insert pusher rs i vs).
    destruct (IH (v :: d) (<[i := vs]> rs)) as (d' & rs' & Hexec & Hperm).
    exists d', rs'. split; [exact Hexec|].
    rewrite Hperm. simpl.
    pose proof (join_insert_perm id rs i (v :: vs) vs Hi) as H.
    rewrite !list_fmap_id in H. simpl in H.
    rewrite <- Permutation_middle in H.
    apply (Permutation_app_inv_r vs (v :: mjoin (<[i := vs]> rs))) in H.
    rewrite <- H. by rewrite <- Permutation_middle.
Qed.

(** *** The popping threads *)

Lemma popping_done (ps : list popping) :
  joined (popping_thread <$> ps) = true ->
  mjoin (held <$> ps) = [] /\ sum_list_with todo ps = 0.
Proof.
  induction ps as [|p ps IH]; [done|]. simpl.
  destruct p as [[|n]|v n]; simpl; try discriminate. exact IH.
Qed.

Lemma exec_poppers sched d r (ps : list popping) :
  length d <= sum_list_with todo ps ->
  exists d' r' ps',
    exec sched {| stack := {| data := d; m := false |}; results := r;
                  results_mutex := false |} (popping_thread <$> ps)
    = Some ({| stack := {| data := d'; m := false |}; results := r';
               results_mutex := false |}, popping_thread <$> ps')
    /\ r' ++ mjoin (held <$> ps') ++ d' ≡ₚ r ++ mjoin (held <$> ps) ++ d
    /\ length d' <= sum_list_with todo ps'.
Proof.
  revert d r ps. induction sched as [|i sched IH]; intros d r ps Hlen;
    [by exists d, r, ps|].
  cbn [exec]. rewrite list_lookup_fmap.
  destruct (ps !! i) as [p|] eqn:Hi; simpl; [|by apply IH].
  destruct p as [[|n]|v n].
  - simpl. rewrite list_insert_id by by rewrite list_lookup_fmap, Hi.
    by apply IH.
  - pose proof (join_insert_perm held ps i (Idle (S n))) as Hheld.
    pose proof (sum_insert todo ps i (Idle (S n))) as Htodo.
    destruct d as [|top rest]; simpl.
    + change (popper n) with (popping_thread (Idle n)).
      rewrite <- (list_fmap_insert popping_thread ps i (Idle n)).
      specialize (Hheld (Idle n) Hi). specialize (Htodo (Idle n) Hi).
      simpl in Hheld, Htodo. rewrite !app_nil_r in Hheld.
      destruct (IH [] r (<[i := Idle n]> ps)) as (d' & r' & ps' & Hexec & Hperm & Hlen');
        [simpl; lia|].
      exists d', r', ps'. split; [exact Hexec|]. split; [|done].
      by rewrite Hperm, Hheld.
    + change (record_value (Some top) (popper n))
        with (popping_thread (Holding top n)).
      rewrite <- (list_fmap_insert popping_thread ps i (Holding top n)).
      specialize (Hheld (Holding top n) Hi). specialize (Htodo (Holding top n) Hi).
      simpl in Hheld, Htodo, Hlen. rewrite app_nil_r in Hheld.
      destruct (IH rest r (<[i := Holding top n]> ps))
        as (d' & r' & ps' & Hexec & Hperm & Hlen'); [lia|].
      exists d', r', ps'. split; [exact Hexec|]. split; [|done].
      rewrite Hperm, Hheld. by rewrite <- app_assoc.
  - pose proof (join_insert_perm held ps i (Holding v n) (Idle n) Hi) as Hheld.
    pose proof (sum_insert todo ps i (Holding v n) (Idle n) Hi) as Htodo.
    simpl in Hheld, Htodo. rewrite app_nil_r in Hheld.
    simpl.
    change (popper n) with (popping_thread (Idle n)).
    rewrite <- (list_fmap_insert popping_thread ps i (Idle n)).
    destruct (IH d (r ++ [v]) (<[i := Idle n]> ps))
      as (d' & r' & ps' & Hexec & Hperm & Hlen'); [lia|].
    exists d', r', ps'. split; [exact Hexec|]. split; [|done].
    rewrite Hperm, <- Hheld. rewrite <- !app_assoc.
    apply Permutation_app_head. simpl. apply Permutation_middle.
Qed.

(** *** The values *)

Lemma Sorted_seqZ a n : Sorted Z.le (seqZ a (Z.of_nat n)).
Proof.
  revert a. induction n as [|n IH]; intros a; [constructor|].
  rewrite seqZ_cons by lia.
  replace (Z.pred (Z.of_nat (S n))) with (Z.of_nat n) by lia.
  constructor; [apply IH|].
  destruct n as [|n]; [constructor|].
  rewrite seqZ_cons by lia. constructor. lia.
Qed.

Lemma ranges_join n k :
  (0 <= k)%Z ->
  mjoin ((fun i => seqZ (i * k) ((i + 1) * k - i * k)) <$> seqZ 0 (Z.of_nat n))
  = seqZ 0 (Z.of_nat n * k).
Proof.
  intros Hk. induction n as [|n IH]; [done|].
  rewrite seqZ_S, fmap_app, join_app, IH. simpl. rewrite app_nil_r.
  replace (Z.of_nat (S n) * k)%Z with (Z.of_nat n * k + k)%Z by lia.
  rewrite seqZ_app by lia.
  by replace ((0 + Z.of_nat n + 1) * k - (0 + Z.of_nat n) * k)%Z with k by lia.
Qed.

Lemma poppers_todo (l : list Z) m :
  sum_list_with todo ((fun _ => Idle m) <$> l) = length l * m
  /\ mjoin (held <$> ((fun _ => Idle m) <$> l)) = [].
Proof.
  induction l as [|x l IH]; simpl in *; [done|].
  destruct IH as [IH1 IH2]. split; [f_equal; exact IH1|exact IH2].
Qed.

(** *** A thread scheduled alone *)

Lemma exec_done {St Exn Ev} m (s : St) :
  exec (replicate m 0) s [@Done St Exn Ev] = Some (s, [Done]).
Proof. induction m as [|m IH]; [done|]. exact IH. Qed.

Lemma pusher_alone vs m d r b :
  length vs <= m ->
  exec (replicate m 0)
    {| stack := {| data := d; m := false |}; results := r; results_mutex := b |}
    [pusher vs]
  = Some ({| stack := {| data := rev vs ++ d; m := false |}; results := r;
             results_mutex := b |}, [Done]).
Proof.
  revert m d. induction vs as [|v vs IH]; intros m d Hm; [apply exec_done|].
  destruct m as [|m]; [simpl in Hm; lia|].
  change (replicate (S m) 0) with (0 :: replicate m 0).
  cbn [exec lookup list_lookup pusher step_thread].
  erewrite bind_end by (cbv; reflexivity). cbn [ret snd insert list_insert].
  rewrite IH by (simpl in Hm; lia). cbn [rev]. by rewrite <- app_assoc.
Qed.

Lemma popper_alone n m d r :
  2 * n <= m ->
  exec (replicate m 0)
    {| stack := {| data := d; m := false |}; results := r;
       results_mutex := false |}
    [popper n]
  = Some ({| stack := {| data := drop n d; m := false |};
             results := r ++ take n d; results_mutex := false |}, [Done]).
Proof.
  revert m d r. induction n as [|n IH]; intros m d r Hm.
  - cbn [popper]. rewrite exec_done. by rewrite drop_0, take_0, app_nil_r.
  - destruct m as [|[|m]]; [lia..|]. destruct d as [|top rest].
    + change (replicate (S (S m)) 0) with (0 :: replicate (S m) 0).
      cbn [exec lookup list_lookup popper step_thread].
      change ((try_catch
                 (value <- on_stack pop ;; ret (record_value value (popper n)))
                 (fun _ => ret (popper n))
                 {| stack := {| data := []; m := false |}; results := r;
                    results_mutex := false |}).2)
        with (Ret (popper n)
                {| stack := {| data := @nil Z; m := false |}; results := r;
                   results_mutex := false |} : result world exn _).
      cbn [insert list_insert].
      rewrite IH by lia. by rewrite drop_nil, !take_nil.
    + change (replicate (S (S m)) 0) with (0 :: replicate (S m) 0).
      cbn [exec lookup list_lookup popper step_thread].
      change ((try_catch
                 (value <- on_stack pop ;; ret (record_value value (popper n)))
                 (fun _ => ret (popper n))
                 {| stack := {| data := top :: rest; m := false |}; results := r;
                    results_mutex := false |}).2)
        with (Ret (record_value (Some top) (popper n))
                {| stack := {| data := rest; m := false |}; results := r;
                   results_mutex := false |} : result world exn _).
      cbn [insert list_insert].
      change (replicate (S m) 0) with (0 :: replicate m 0).
      cbn [exec lookup list_lookup record_value step_thread].
      change ((lock_guard results_lock results_unlock
                 (v <- get (Some top) ;; push_back v) ;; ret (popper n))
                {| stack := {| data := rest; m := false |}; results := r;
                   results_mutex := false |}).2
        with (Ret (popper n)
                {| stack := {| data := rest; m := false |}; results := r ++ [top];
                   results_mutex := false |} : result world exn _).
      cbn [insert list_insert].
      rewrite IH by lia. cbn [drop take]. by rewrite <- app_assoc.
Qed.

(** X14 (a worker thread scheduled alone).  A thread running
    [concurrent_push], given at least one step per value, and a thread
    running [concurrent_pop], given at least two steps per iteration,
    finish and leave exactly what the functions [concurrent_push] and
    [concurrent_pop] leave when called directly: cutting the functions
    into critical sections changes nothing when nothing runs in
    between. *)
Theorem worker_thread_alone start end_ count d r m1 m2 :
  Z.to_nat (end_ - start) <= m1 -> 2 * Z.to_nat count <= m2 ->
  let w := {| stack := {| data := d; m := false |}; results := r;
              results_mutex := false |} in
  (exists w', (concurrent_push start end_ w).2 = Ret tt w'
              /\ exec (replicate m1 0) w [concurrent_push_thread start end_]
                 = Some (w', [Done]))
  /\ (exists w', (concurrent_pop count w).2 = Ret tt w'
                 /\ exec (replicate m2 0) w [concurrent_pop_thread count]
                    = Some (w', [Done])).
Proof.
  intros H1 H2 w. split; eexists; split.
  - apply StackClientFacts.concurrent_push_pushes_range.
  - unfold concurrent_push_thread. apply pusher_alone. by rewrite length_seqZ.
  - apply StackClientFacts.concurrent_pop_moves_top.
  - unfold concurrent_pop_thread. by apply popper_alone.
Qed.

Lemma worker_thread_alone_witness :
  Z.to_nat (3 - 0) <= 3 /\ 2 * Z.to_nat 2 <= 4
  /\ exec (replicate 3 0)
       {| stack := ctor; results := []; results_mutex := false |}
       [concurrent_push_thread 0 3]
     = Some ({| stack := {| data := [2; 1; 0]%Z; m := false |}; results := [];
                results_mutex := false |}, [Done]).
Proof.
  assert (Z.to_nat (3 - 0) <= 3) as H1 by (vm_compute; lia).
  assert (2 * Z.to_nat 2 <= 4) as H2 by (vm_compute; lia).
  split; [exact H1|]. split; [exact H2|].
  destruct (worker_thread_alone 0 3 2 [] [] 3 4 H1 H2) as [(w' & Hf & Hexec) _].
  unfold ctor. rewrite Hexec. f_equal. f_equal.
  rewrite StackClientFacts.concurrent_push_pushes_range in Hf.
  by injection Hf as <-.
Defined.

(** X13 (the concurrent test of the stack).  Let [n] threads run
    [concurrent_push] on the ranges [i*k, (i+1)*k) and be joined, and then
    [n] threads run [concurrent_pop] with [count = k] and be joined, the
    critical sections of the threads being interleaved in any order
    whatever.  No exception escapes a thread, and when all joins have
    returned [results] holds [n*k] values, each of 0, ..., n*k-1 exactly
    once: sorting it gives exactly 0, 1, ..., n*k-1.  Both assertions of
    [test_concurrent_operations] (n = 5, k = 100) therefore hold in every
    interleaving. *)
Theorem stack_concurrent_test n k sched1 sched2 :
  (0 <= n)%Z -> (0 <= k)%Z ->
  run_test n k sched1 sched2 <> Crashed
  /\ forall r,
       run_test n k sched1 sched2 = Finished r ->
       length r = Z.to_nat (n * k)
       /\ r ≡ₚ seqZ 0 (n * k)
       /\ forall sorted, Sorted Z.le sorted -> sorted ≡ₚ r ->
                         sorted = seqZ 0 (n * k).
Proof.
  intros Hn Hk. unfold run_test, pushers, poppers, concurrent_push_thread,
    concurrent_pop_thread, ctor.
  rewrite (list_fmap_compose (fun i => seqZ (i * k) ((i + 1) * k - i * k)) pusher).
  rewrite (list_fmap_compose (fun _ => Idle (Z.to_nat k)) popping_thread).
  destruct (exec_pushers sched1 [] [] false
              ((fun i => seqZ (i * k) ((i + 1) * k - i * k)) <$> seqZ 0 n))
    as (d1 & rs1 & -> & Hperm1).
  destruct (joined (pusher <$> rs1)) eqn:Hj1; [|by split].
  apply pusher_done in Hj1. rewrite Hj1, app_nil_r in Hperm1. simpl in Hperm1.
  rewrite <- (Z2Nat.id n), ranges_join, Z2Nat.id in Hperm1 by done.
  destruct (poppers_todo (seqZ 0 n) (Z.to_nat k)) as [Htodo Hheld].
  destruct (exec_poppers sched2 d1 [] ((fun _ => Idle (Z.to_nat k)) <$> seqZ 0 n))
    as (d2 & r2 & ps2 & -> & Hperm2 & Hlen2).
  { rewrite Htodo, length_seqZ, Hperm1, length_seqZ. lia. }
  destruct (joined (popping_thread <$> ps2)) eqn:Hj2; [|by split].
  apply popping_done in Hj2 as [Hheld2 Htodo2].
  destruct d2; [|simpl in Hlen2; lia].
  rewrite Hheld, Hheld2 in Hperm2. simpl in Hperm2. rewrite app_nil_r in Hperm2.
  split; [done|]. intros r [= <-].
  assert (r2 ≡ₚ seqZ 0 (n * k)) as Hr by by rewrite Hperm2.
  split; [by rewrite Hr, length_seqZ|]. split; [done|].
  intros sorted Hs Hp. eapply (Sorted_unique Z.le); [done| |by rewrite Hp].
  rewrite <- (Z2Nat.id (n * k)) by lia. apply Sorted_seqZ.
Qed.

Lemma stack_concurrent_test_witness :
  (0 <= 5)%Z /\ (0 <= 100)%Z
  /\ exists r,
       test_concurrent_operations (one_after_the_other 5 100)
         (one_after_the_other 5 200) = Finished r
       /\ length r = 500
       /\ r ≡ₚ seqZ 0 500.
Proof.
  split; [lia|]. split; [lia|].
  destruct (stack_concurrent_test 5 100 (one_after_the_other 5 100)
              (one_after_the_other 5 200) ltac:(lia) ltac:(lia)) as [_ H].
  eexists. split; [vm_compute; reflexivity|].
  match goal with |- length ?r = _ /\ _ =>
    destruct (H r) as (H1 & H2 & _); [vm_compute; reflexivity|]
  end.
  exact (conj H1 H2).
Defined.

End StackThreadsFacts.

(** ** Facts about the concurrent test of the queue *)

Module QueueThreadsFacts.
Import Queue Control Threads QueueThreads ExecFacts QueueFacts.
Import StackThreadsFacts.

(** *** The steps of a consumer and of a producer *)

Section StepFacts.
Context {T : Type}.
Implicit Types (q : threadsafe_queue T) (l : list T) (v : T).

Lemma wait_and_pop_ref_split (x : T) q :
  wait_and_pop_ref x q = (wait_for_data ;; take_ref x) q.
Proof.
  unfold wait_and_pop_ref, wait_pop_head_ref, take_ref. apply bind_assoc.
Qed.

Lemma wait_for_data_run q :
  head q <> tail q -> head_mutex q = false -> tail_mutex q = false ->
  wait_for_data q
  = ([LockHead; LockTail; UnlockTail], Ret tt (set_head_mutex true q)).
Proof.
  destruct q as [h b hm tm hd tl]; simpl; intros Hne -> ->.
  unfold wait_for_data, bind; simpl.
  rewrite bool_decide_eq_true_2 by done. reflexivity.
Qed.

Lemma wait_for_data_busy q :
  head_mutex q = true -> wait_for_data q = ([], Block q).
Proof. destruct q as [h b hm tm hd tl]; simpl; intros ->. reflexivity. Qed.

Lemma take_ref_run q a (n : node T) v (x : T) :
  head q = Some a -> heap q !! a = Some n -> data n = Some v ->
  take_ref x q
  = ([UnlockHead],
     Ret v (set_head_mutex false
              (set_head (next n) (set_heap (delete a (heap q)) q)))).
Proof.
  destruct q as [h b hm tm hd tl], n as [d nx]; simpl. intros -> Ha ->.
  unfold take_ref.
  erewrite bind_run; cycle 1.
  { eapply scope_exit_run; [|reflexivity].
    unfold bind, load; simpl. rewrite Ha; simpl.
    erewrite pop_head_run by (simpl; done). reflexivity. }
  erewrite scope_exit_run; cycle 1.
  { reflexivity. }
  { eapply destroy_last; simpl; [apply lookup_insert_eq|done]. }
  simpl. unfold set_heap, set_head_mutex, set_head; simpl.
  by rewrite delete_insert_eq.
Qed.

Lemma push_locked q l v :
  repr (set_head_mutex false q) l ->
  exists q',
    (push v q).2 = Ret tt q'
    /\ repr (set_head_mutex false q') (l ++ [v])
    /\ head_mutex q' = head_mutex q.
Proof.
  intros Hr.
  destruct (repr_push _ _ v Hr) as (t & q0 & Htl & _ & -> & Hfresh & Hr').
  destruct (repr_unlocked _ _ Hr) as [_ Htm].
  destruct Hr as (a0 & t' & _ & Htl' & _ & Ht & Hb & _).
  destruct q as [h b hm tm hd tl]; simpl in *.
  assert (t' = t) as -> by congruence.
  assert (t <> b) as Hne by (specialize (Hb t ltac:(eauto)); lia).
  eexists. split; [by erewrite push_run by (simpl; eauto)|].
  split; [exact Hr'|done].
Qed.

Lemma take_locked q v l (x : T) :
  repr (set_head_mutex false q) (v :: l) ->
  exists q',
    (take_ref x q).2 = Ret v q'
    /\ repr q' l /\ head_mutex q' = false.
Proof.
  intros Hr.
  destruct (repr_front _ _ _ Hr) as (a & n & Hh & _ & Ha & _ & _).
  pose proof (repr_unlink _ _ _ _ _ Hh Ha Hr) as Hr'.
  destruct q as [h b hm tm hd tl]; simpl in *.
  eexists. split; [by erewrite take_ref_run by (simpl; eauto)|].
  split; [exact Hr'|done].
Qed.
End StepFacts.

(** *** Bookkeeping over the list of threads *)

Lemma join_insert_cons {A B} (f : A -> list B) (ps : list A) i p p' v :
  ps !! i = Some p -> f p = v :: f p' ->
  mjoin (f <$> ps) ≡ₚ v :: mjoin (f <$> <[i := p']> ps).
Proof.
  intros Hi Hf. pose proof (join_insert_perm f ps i p p' Hi) as H.
  rewrite Hf, <- Permutation_middle in H.
  by apply (Permutation_app_inv_r (f p') (v :: mjoin (f <$> <[i := p']> ps))) in H.
Qed.

Lemma join_insert_same {A B} (f : A -> list B) (ps : list A) i p p' :
  ps !! i = Some p -> f p = f p' ->
  mjoin (f <$> <[i := p']> ps) ≡ₚ mjoin (f <$> ps).
Proof.
  intros Hi Hf. pose proof (join_insert_perm f ps i p p' Hi) as H.
  rewrite Hf in H. by apply Permutation_app_inv_r in H.
Qed.

Lemma bind_block_end {St Exn Ev A B} (c : M St Exn Ev A) (k : A -> M St Exn Ev B) s s1 :
  (c s).2 = Block s1 -> (bind c k s).2 = Block s1.
Proof.
  unfold bind. destruct (c s) as [t [a s2|e s2|s2|]]; simpl; intros H;
    try discriminate H. by injection H as ->.
Qed.

Lemma zoom_block {St St' Exn Ev Ev' A} (get : St -> St') (set : St' -> St -> St)
    (tag : Ev' -> Ev) (c : M St' Exn Ev' A) s s' :
  (c (get s)).2 = Block s' ->
  (zoom get set tag c s).2 = Block (set s' s).
Proof. unfold zoom. destruct (c (get s)) as [t r]; simpl. by intros ->. Qed.

Lemma zoom_ret {St St' Exn Ev Ev' A} (get : St -> St') (set : St' -> St -> St)
    (tag : Ev' -> Ev) (c : M St' Exn Ev' A) s a s' :
  (c (get s)).2 = Ret a s' ->
  (zoom get set tag c s).2 = Ret a (set s' s).
Proof. unfold zoom. destruct (c (get s)) as [t r]; simpl. by intros ->. Qed.

Lemma set_queue_same w : set_queue (queue w) w = w.
Proof. by destruct w. Qed.

Lemma unlocked_same {T} (q : threadsafe_queue T) :
  head_mutex q = false -> set_head_mutex false q = q.
Proof. destruct q; simpl; by intros ->. Qed.

Lemma relock_same {T} (q : threadsafe_queue T) :
  head_mutex q = false -> set_head_mutex false (set_head_mutex true q) = q.
Proof. destruct q; simpl; by intros ->. Qed.

(** *** The invariant is kept by every step *)

Section Invariant.
Variable item : nat -> Z.
Variable all : list Z.

Lemma step_keeps_invariant i w ps l p :
  invariant all w ps l -> ps !! i = Some p ->
  exists w' p' l',
    step_thread (place_thread item p) w = Some (w', place_thread item p')
    /\ invariant all w' (<[i := p']> ps) l'.
Proof.
  intros (Hr & Hhold & Hne & Hrm & (r & Hres & Hperm) & Hcount) Hi.
  assert (forall p', in_hand p = in_hand p' ->
    mjoin (in_hand <$> <[i := p']> ps) ≡ₚ mjoin (in_hand <$> ps)) as Hhand
    by (intros; by eapply join_insert_same).
  assert (forall p', to_push p = to_push p' ->
    mjoin (to_push <$> <[i := p']> ps) ≡ₚ mjoin (to_push <$> ps)) as Hpush
    by (intros; by eapply join_insert_same).
  pose proof (fun p' => sum_insert holds_head ps i p p' Hi) as Hholds.
  pose proof (fun p' => sum_insert to_pop ps i p p' Hi) as Hpops.
  assert (holds_head p <= sum_list_with holds_head ps) as Hin
    by (apply sum_list_with_in; by eapply list_elem_of_lookup_2).
  assert (forall p', p' = p -> invariant all w (<[i := p']> ps) l) as Hsame.
  { intros p' ->. rewrite list_insert_id by done.
    repeat split; eauto. }
  destruct p as [[|v vs]|[|n]|n|v n]; cbn [place_thread].
  - (* a producer that has finished *)
    exists w, (Producing []), l. split; [done|]. by apply Hsame.
  - (* a producer pushes *)
    destruct (push_locked _ _ v Hr) as (q' & Hrun & Hr' & Hhm').
    exists (set_queue q' w), (Producing vs), (l ++ [v]). split.
    { cbn [producer step_thread].
      by erewrite bind_end by (apply zoom_ret; exact Hrun). }
    pose proof (join_insert_cons to_push ps i _ (Producing vs) v Hi eq_refl) as Hv.
    specialize (Hhand (Producing vs) eq_refl).
    specialize (Hholds (Producing vs)). specialize (Hpops (Producing vs)).
    simpl in Hholds, Hpops.
    repeat split; simpl.
    + exact Hr'.
    + rewrite Hhm'. lia.
    + intros _. by destruct l.
    + done.
    + exists r. split; [done|]. rewrite Hhand, <- Hperm, Hv.
      rewrite <- !app_assoc. done.
    + rewrite Hv in Hcount. rewrite length_app. simpl in *. lia.
  - (* a consumer that has finished *)
    exists w, (Waiting 0), l. split; [done|]. by apply Hsame.
  - (* a consumer calls wait_for_data *)
    destruct (head_mutex (queue w)) eqn:Hhm.
    { exists w, (Waiting (S n)), l. split; [|by apply Hsame].
      cbn [consumer step_thread].
      erewrite bind_block_end
        by (apply zoom_block; by rewrite wait_for_data_busy).
      by rewrite set_queue_same. }
    rewrite unlocked_same in Hr by done.
    destruct (repr_unlocked _ _ Hr) as [_ Htm].
    pose proof (repr_empty_iff _ _ Hr) as Hemp.
    destruct l as [|v0 l0].
    { exists w, (Waiting (S n)), []. split; [|by apply Hsame].
      cbn [consumer step_thread].
      erewrite bind_block_end
        by (apply zoom_block; by rewrite wait_for_data_empty by (done || by apply Hemp)).
      by rewrite set_queue_same. }
    exists (set_queue (set_head_mutex true (queue w)) w), (Locked n), (v0 :: l0).
    split.
    { cbn [consumer step_thread].
      by erewrite bind_end
        by (apply zoom_ret; rewrite wait_for_data_run; [done|by intros ?%Hemp|done..]). }
    specialize (Hhand (Locked n) eq_refl). specialize (Hpush (Locked n) eq_refl).
    specialize (Hholds (Locked n)). specialize (Hpops (Locked n)).
    simpl in Hholds, Hpops.
    repeat split; simpl.
    + by rewrite relock_same.
    + lia.
    + done.
    + done.
    + exists r. split; [done|]. by rewrite Hhand, Hpush.
    + rewrite Hpush. simpl in Hcount |- *. lia.
  - (* a consumer removes the head node *)
    simpl in Hin.
    destruct (head_mutex (queue w)) eqn:Hhm; [|lia].
    destruct l as [|v0 l0]; [by destruct Hne|].
    destruct (take_locked _ _ _ (item n) Hr) as (q' & Hrun & Hr' & Hhm').
    exists (set_queue q' w), (Got v0 n), l0. split.
    { cbn [remove_item step_thread].
      by erewrite bind_end by (apply zoom_ret; exact Hrun). }
    assert (i < length ps) as Hlt by by eapply lookup_lt_Some.
    pose proof (join_insert_cons in_hand (<[i := Got v0 n]> ps) i (Got v0 n)
                  (Locked n) v0 (list_lookup_insert_eq _ _ _ Hlt) eq_refl) as Hv.
    rewrite list_insert_insert_eq in Hv.
    rewrite (list_insert_id ps i (Locked n) Hi) in Hv.
    specialize (Hpush (Got v0 n) eq_refl).
    specialize (Hholds (Got v0 n)). specialize (Hpops (Got v0 n)).
    simpl in Hholds, Hpops.
    repeat split; simpl.
    + by rewrite unlocked_same.
    + rewrite Hhm'. lia.
    + by rewrite Hhm'.
    + done.
    + exists r. split; [done|]. rewrite Hv, Hpush, <- Hperm.
      apply Permutation_app_head. simpl. apply Permutation_middle.
    + rewrite Hpush. simpl in Hcount |- *. lia.
  - (* a consumer records the value it holds *)
    exists (set_results ({[ v ]} ∪ results w) w), (Waiting n), l. split.
    { cbn [record_item step_thread]. destruct w as [q rs rm].
      simpl in Hrm; subst rm. reflexivity. }
    pose proof (join_insert_cons in_hand ps i _ (Waiting n) v Hi eq_refl) as Hv.
    specialize (Hpush (Waiting n) eq_refl).
    specialize (Hholds (Waiting n)). specialize (Hpops (Waiting n)).
    simpl in Hholds, Hpops.
    repeat split; simpl.
    + exact Hr.
    + lia.
    + done.
    + done.
    + exists (r ++ [v]). split.
      * rewrite list_to_set_app_L, Hres. simpl.
        rewrite (right_id_L ∅ (∪)). apply (comm_L (∪)).
      * rewrite Hpush, <- Hperm, Hv. rewrite <- !app_assoc. done.
    + rewrite Hpush. simpl in Hcount |- *. lia.
Qed.

Lemma exec_keeps_invariant sched w ps l :
  invariant all w ps l ->
  exists w' ps' l',
    exec sched w (place_thread item <$> ps)
    = Some (w', place_thread item <$> ps')
    /\ invariant all w' ps' l'.
Proof.
  revert w ps l. induction sched as [|i sched IH]; intros w ps l Hinv;
    [by exists w, ps, l|].
  cbn [exec]. rewrite list_lookup_fmap.
  destruct (ps !! i) as [p|] eqn:Hi; simpl; [|by eapply IH].
  destruct (step_keeps_invariant i w ps l p Hinv Hi) as (w' & p' & l' & -> & Hinv').
  rewrite <- list_fmap_insert. by eapply IH.
Qed.
End Invariant.

(** *** A consumer scheduled alone *)

Lemma consumer_suspended item n m (w : world) :
  head (queue w) = tail (queue w) ->
  head_mutex (queue w) = false -> tail_mutex (queue w) = false ->
  exec (replicate m 0) w [consumer item (S n)]
  = Some (w, [consumer item (S n)]).
Proof.
  intros He Hhm Htm.
  induction m as [|m IH]; [done|].
  change (replicate (S m) 0) with (0 :: replicate m 0).
  cbn [exec lookup list_lookup consumer step_thread].
  erewrite bind_block_end
    by (apply zoom_block; by rewrite wait_for_data_empty).
  rewrite set_queue_same. exact IH.
Qed.

(** X16 (a consumer scheduled alone).  On a queue that sequential use
    has left holding at least one value, a consumer thread with one
    iteration to run, given three steps, does what [wait_and_pop(item)]
    followed by [results.insert(item)] does: it leaves the queue
    [wait_and_pop(item)] leaves and adds the oldest value to [results].
    On an empty queue it stays suspended in [wait_for_data] however often
    it is woken, and changes nothing. *)
Theorem consumer_thread_alone item (q : threadsafe_queue Z) v l rs :
  reach q (v :: l) ->
  exists q',
    (wait_and_pop_ref (item 0) q).2 = Ret v q'
    /\ exec [0; 0; 0] {| queue := q; results := rs; results_mutex := false |}
         [consumer item 1]
       = Some ({| queue := q'; results := {[ v ]} ∪ rs; results_mutex := false |},
               [Done])
    /\ forall m q0,
         reach q0 [] ->
         exec (replicate m 0)
           {| queue := q0; results := rs; results_mutex := false |}
           [consumer item 1]
         = Some ({| queue := q0; results := rs; results_mutex := false |},
                 [consumer item 1]).
Proof.
  intros Hr%reach_repr.
  destruct (repr_unlocked _ _ Hr) as [Hhm Htm].
  pose proof (repr_empty_iff _ _ Hr) as Hemp.
  assert (head q <> tail q) as Hne by (by intros ?%Hemp).
  pose proof (wait_for_data_run q Hne Hhm Htm) as Hwait.
  destruct (take_locked (set_head_mutex true q) v l (item 0)) as (q' & Htake & _ & _).
  { by rewrite relock_same. }
  exists q'. split; [|split].
  - rewrite wait_and_pop_ref_split.
    erewrite bind_end by by rewrite Hwait. exact Htake.
  - cbn [exec lookup list_lookup consumer step_thread].
    erewrite bind_end by (apply zoom_ret; simpl; by rewrite Hwait).
    cbn [ret snd insert list_insert lookup list_lookup remove_item step_thread].
    erewrite bind_end by (apply zoom_ret; simpl; exact Htake).
    reflexivity.
  - intros m q0 Hr0%reach_repr.
    destruct (repr_unlocked _ _ Hr0) as [Hhm0 Htm0].
    apply consumer_suspended; simpl; [|done..].
    by apply (repr_empty_iff _ _ Hr0).
Qed.

Lemma consumer_thread_alone_witness :
  reach a_queue [1; 2]%Z
  /\ exists q',
       (wait_and_pop_ref 0%Z a_queue).2 = Ret 1%Z q'
       /\ exec [0; 0; 0]
            {| queue := a_queue; results := ∅; results_mutex := false |}
            [consumer (fun _ => 0%Z) 1]
          = Some ({| queue := q'; results := {[ 1%Z ]} ∪ ∅;
                     results_mutex := false |}, [Done]).
Proof.
  split; [exact reach_a_queue|].
  destruct (consumer_thread_alone (fun _ => 0%Z) a_queue 1%Z [2%Z] ∅ reach_a_queue)
    as (q' & H1 & H2 & _).
  exists q'. exact (conj H1 H2).
Defined.

(** *** The threads of the test *)

Lemma measures_producers (vss : list (list Z)) :
  mjoin (in_hand <$> (Producing <$> vss)) = []
  /\ mjoin (to_push <$> (Producing <$> vss)) = mjoin vss
  /\ sum_list_with holds_head (Producing <$> vss) = 0
  /\ sum_list_with to_pop (Producing <$> vss) = 0.
Proof.
  induction vss as [|vs vss (IH1 & IH2 & IH3 & IH4)]; [done|].
  simpl in *. repeat split; [exact IH1|f_equal; exact IH2|exact IH3|exact IH4].
Qed.

Lemma measures_consumers {A} (xs : list A) m :
  mjoin (in_hand <$> ((fun _ => Waiting m) <$> xs)) = []
  /\ mjoin (to_push <$> ((fun _ => Waiting m) <$> xs)) = []
  /\ sum_list_with holds_head ((fun _ => Waiting m) <$> xs) = 0
  /\ sum_list_with to_pop ((fun _ => Waiting m) <$> xs) = length xs * m.
Proof.
  induction xs as [|x xs (IH1 & IH2 & IH3 & IH4)]; [done|].
  simpl in *. repeat split; [exact IH1|exact IH2|exact IH3|f_equal; exact IH4].
Qed.

Lemma measures_joined item (ps : list place) :
  joined (place_thread item <$> ps) = true ->
  mjoin (in_hand <$> ps) = [] /\ mjoin (to_push <$> ps) = []
  /\ sum_list_with to_pop ps = 0.
Proof.
  induction ps as [|p ps IH]; [done|]. simpl.
  destruct p as [[|v vs]|[|n]|n|v n]; simpl; try discriminate; exact IH.
Qed.

Lemma values_join n k :
  (0 <= k)%Z ->
  mjoin ((fun id => (fun i => id * k + i)%Z <$> seqZ 0 k) <$> seqZ 0 (Z.of_nat n))
  = seqZ 0 (Z.of_nat n * k).
Proof.
  intros Hk. induction n as [|n IH]; [done|].
  rewrite seqZ_S, fmap_app, join_app, IH. simpl. rewrite app_nil_r.
  replace (Z.of_nat (S n) * k)%Z with (Z.of_nat n * k + k)%Z by lia.
  rewrite seqZ_app by lia. f_equal.
  change (fun i => ((0 + Z.of_nat n) * k + i)%Z) with (Z.add ((0 + Z.of_nat n) * k)).
  rewrite fmap_add_seqZ. f_equal. lia.
Qed.

(** X15 (the concurrent test of the queue).  Let [np] producers push
    [k] values each, [id * k + i], and [nc] consumers call
    [wait_and_pop] [np * k / nc] times each and insert what they get
    into [results], as many pops as pushes in all, the steps of the ten
    threads being interleaved in any order whatever: a consumer may find
    the queue empty and be suspended any number of times, and producers
    may push between the moment a consumer has seen the queue non-empty
    and the moment it removes the head node.  No thread ever
    dereferences a null or dangling node pointer, and once all threads
    are joined [results] is exactly the set of the values 0, ...,
    np*k - 1: none is lost, so the check of [test_concurrent_operations]
    (np = nc = 5, k = 10) finds every expected value. *)
Theorem queue_concurrent_test np nc k item sched :
  (0 <= np)%Z -> (0 <= k)%Z -> (0 < nc)%Z -> (nc * (np * k / nc) = np * k)%Z ->
  run_test np nc k item sched <> Crashed
  /\ forall r,
       run_test np nc k item sched = Finished r ->
       r = list_to_set (seqZ 0 (np * k)) /\ all_found np k r = true.
Proof.
  intros Hnp Hk Hnc Hdiv. unfold run_test, threads.
  set (m := Z.to_nat (np * k / nc)).
  set (vss := (fun id => (fun i => id * k + i)%Z <$> seqZ 0 k) <$> seqZ 0 np).
  set (ps0 := (Producing <$> vss) ++ ((fun _ => Waiting m) <$> seqZ 0 nc)).
  assert (((fun id => producer ((fun i => id * k + i)%Z <$> seqZ 0 k)) <$> seqZ 0 np)
          ++ ((fun _ => consumer item m) <$> seqZ 0 nc)
          = place_thread item <$> ps0) as ->.
  { unfold ps0, vss. by rewrite fmap_app, <- !list_fmap_compose. }
  destruct (measures_producers vss) as (Hp1 & Hp2 & Hp3 & Hp4).
  destruct (measures_consumers (seqZ 0 nc) m) as (Hc1 & Hc2 & Hc3 & Hc4).
  assert (mjoin vss = seqZ 0 (np * k)) as Hvss.
  { unfold vss. rewrite <- (Z2Nat.id np) by done. by apply values_join. }
  assert (invariant (seqZ 0 (np * k))
            {| queue := ctor; results := ∅; results_mutex := false |} ps0 [])
    as Hinv.
  { unfold ps0. repeat split; simpl.
    - apply repr_ctor.
    - by rewrite sum_list_with_app, Hp3, Hc3.
    - done.
    - exists []. split; [done|]. simpl.
      rewrite !fmap_app, !join_app, Hp1, Hp2, Hc1, Hc2, Hvss.
      simpl. by rewrite !app_nil_r.
    - rewrite fmap_app, join_app, Hp2, Hc2, app_nil_r, Hvss.
      rewrite sum_list_with_app, Hp4, Hc4, !length_seqZ. unfold m.
      rewrite <- Z2Nat.inj_mul by (try apply Z.div_pos; lia).
      rewrite Hdiv. done. }
  destruct (exec_keeps_invariant item _ sched _ _ _ Hinv)
    as (w' & ps' & l' & -> & Hinv').
  destruct (joined (place_thread item <$> ps')) eqn:Hj; [|by split].
  split; [done|]. intros r [= <-].
  apply measures_joined in Hj as (Hj1 & Hj2 & Hj3).
  destruct Hinv' as (_ & _ & _ & _ & (r & Hres & Hperm) & Hcount).
  rewrite Hj2, Hj3 in Hcount. destruct l'; [|simpl in Hcount; lia].
  rewrite Hj1, Hj2 in Hperm. simpl in Hperm. rewrite app_nil_r in Hperm.
  assert (results w' = list_to_set (seqZ 0 (np * k))) as Heq.
  { rewrite Hres. apply set_eq. intros x.
    by rewrite !elem_of_list_to_set, Hperm. }
  split; [exact Heq|].
  unfold all_found. apply forallb_forall. intros x Hx%list_elem_of_In.
  apply bool_decide_eq_true. rewrite Heq. by apply elem_of_list_to_set.
Qed.

Lemma queue_concurrent_test_witness :
  (0 <= 5)%Z /\ (0 <= 10)%Z /\ (0 < 5)%Z /\ (5 * (5 * 10 / 5) = 5 * 10)%Z
  /\ exists r,
       test_concurrent_operations (fun _ => 0%Z)
         (StackThreads.one_after_the_other 10 30) = Finished r
       /\ all_found 5 10 r = true.
Proof.
  assert (5 * (5 * 10 / 5) = 5 * 10)%Z as Hdiv by (vm_compute; reflexivity).
  split; [lia|]. split; [lia|]. split; [lia|]. split; [exact Hdiv|].
  destruct (queue_concurrent_test 5 5 10 (fun _ => 0%Z)
              (StackThreads.one_after_the_other 10 30)
              ltac:(lia) ltac:(lia) ltac:(lia) Hdiv) as [_ H].
  eexists. split; [vm_compute; reflexivity|].
  match goal with |- all_found _ _ ?r = _ =>
    destruct (H r) as (_ & H2); [vm_compute; reflexivity|]
  end.
  exact H2.
Defined.

End QueueThreadsFacts.
